(** * lzo indexer: a shallow embedding of [indexer.go]

    The Go package parses the header of an lzop container, walks the
    block sequence with reads and seeks on the source file, and records
    the offset of every block.  The embedding keeps the shape of the Go
    code: the [Indexer] struct is a record, methods are functions that
    pass the record along, [error] values are an inductive type, and
    the few standard-library calls the code relies on ([io.ReadFull],
    [binary.Read], [hash/adler32], [hash/crc32], [os.File.Seek],
    [binary.BigEndian.PutUint64]) are modelled next to it. *)

From Stdlib Require Import ZArith Lia Bool String List Sorted.
From Stdlib.Strings Require Import Byte.
Import ListNotations.
Open Scope Z_scope.

(** ** Bytes and big-endian integers *)

Abbreviation byte := Byte.byte (only parsing).

Definition b2z (b : byte) : Z := Z.of_N (Byte.to_N b).

Definition z2b (n : Z) : byte :=
  match Byte.of_N (Z.to_N (Z.land n 255)) with
  | Some b => b
  | None => x00
  end.

(** [bytes.Equal] *)
Fixpoint bytes_Equal (a b : list byte) : bool :=
  match a, b with
  | [], [] => true
  | x :: a', y :: b' => Byte.eqb x y && bytes_Equal a' b'
  | _, _ => false
  end.

(** [binary.BigEndian.Uint16] and [Uint32] on a slice of exactly that
    many bytes ([binary.Read] hands them the buffer it filled). *)
Definition Uint16 (b : list byte) : Z :=
  match b with
  | [b0; b1] => Z.lor (b2z b1) (Z.shiftl (b2z b0) 8)
  | _ => 0
  end.

Definition Uint32 (b : list byte) : Z :=
  match b with
  | [b0; b1; b2; b3] =>
      Z.lor (Z.lor (Z.lor (b2z b3) (Z.shiftl (b2z b2) 8))
                   (Z.shiftl (b2z b1) 16))
            (Z.shiftl (b2z b0) 24)
  | _ => 0
  end.

Definition Uint8 (b : list byte) : Z :=
  match b with
  | [b0] => b2z b0
  | _ => 0
  end.

(** Two's complement wrap-around of Go's [int64] and the conversion
    [uint64(x)]. *)
Definition wrap64 (x : Z) : Z := (x + 2 ^ 63) mod 2 ^ 64 - 2 ^ 63.
Definition to_uint64 (x : Z) : Z := x mod 2 ^ 64.

(** ** Package constants *)

Definition version : Z := 0x1030.
Definition flagAdler32D : Z := Z.shiftl 1 0.
Definition flagAdler32C : Z := Z.shiftl 1 1.
Definition flagCRC32D : Z := Z.shiftl 1 8.
Definition flagCRC32C : Z := Z.shiftl 1 9.
Definition flagFilter : Z := Z.shiftl 1 11.
Definition flagCRC32 : Z := Z.shiftl 1 12.

Definition lzoMagic : list byte :=
  [x89; x4c; x5a; x4f; x00; x0d; x0a; x1a; x0a].

(** ** Checksums of the Go standard library

    [hash/adler32]: the digest is [s2 << 16 | s1], both sums kept
    modulo 65521; [Reset] sets it to 1.  The library delays the
    reduction over runs of bytes, which gives the same value. *)

Definition adler32_mod : Z := 65521.

Definition adler32_byte (d : Z) (b : byte) : Z :=
  let s1 := (Z.land d 0xffff + b2z b) mod adler32_mod in
  let s2 := (Z.shiftr d 16 + s1) mod adler32_mod in
  Z.lor (Z.shiftl s2 16) s1.

Definition adler32_update (d : Z) (p : list byte) : Z :=
  fold_left adler32_byte p d.

Definition adler32_Checksum (p : list byte) : Z := adler32_update 1 p.

(** [hash/crc32] with the IEEE polynomial: [Reset] sets the digest to
    0 and [Write] replaces it by [crc32.Update].  The table entry of
    the library is computed here bit by bit. *)

Definition crc32_IEEE : Z := 0xedb88320.

Fixpoint crc32_shift (k : nat) (c : Z) : Z :=
  match k with
  | O => c
  | S k' =>
      crc32_shift k'
        (if Z.testbit c 0 then Z.lxor (Z.shiftr c 1) crc32_IEEE
         else Z.shiftr c 1)
  end.

Definition crc32_byte (crc : Z) (b : byte) : Z :=
  Z.lxor (crc32_shift 8 (Z.land (Z.lxor crc (b2z b)) 0xff)) (Z.shiftr crc 8).

Definition crc32_update (crc : Z) (p : list byte) : Z :=
  Z.lxor (fold_left crc32_byte p (Z.lxor crc 0xffffffff)) 0xffffffff.

Definition crc32_ChecksumIEEE (p : list byte) : Z := crc32_update 0 p.

(** ** Errors *)

Inductive error : Type :=
| io_EOF
| io_ErrUnexpectedEOF
| errors_New (msg : string)
| PathError (op : string).

(** The taxonomy the specification uses for these values. *)
Definition FormatError (e : error) : Prop :=
  e = errors_New "lzo: invalid header" \/
  e = errors_New "lzo: incompatible version" \/
  e = errors_New "lzo: incompatible method".

Definition CorruptionError (e : error) : Prop :=
  e = errors_New "lzo: data corruption".

(** ** The source file: [*os.File]

    A file is its contents, the cursor of the open handle and whether
    the handle can seek at all (a pipe cannot). *)

Record File : Type := mkFile {
  contents : list byte;
  offset : Z;
  seekable : bool
}.

(** One [Read] of at most [n] bytes at the cursor. *)
Definition File_Read (n : nat) (fl : File) : list byte * File :=
  let bs := firstn n (skipn (Z.to_nat (offset fl)) (contents fl)) in
  (bs, mkFile (contents fl) (offset fl + Z.of_nat (length bs)) (seekable fl)).

(** [f.Seek(0, os.SEEK_CUR)] *)
Definition File_Seek_CUR0 (fl : File) : Z * option error :=
  if seekable fl then (offset fl, None) else (0, Some (PathError "seek")).

(** [f.Seek(off, os.SEEK_SET)]: a negative target is refused and the
    cursor stays. *)
Definition File_Seek_SET (off : Z) (fl : File) : File * option error :=
  if seekable fl then
    if off <? 0 then (fl, Some (PathError "seek"))
    else (mkFile (contents fl) off (seekable fl), None)
  else (fl, Some (PathError "seek")).

(** ** The [Indexer] struct

    [buf] and [hist] are scratch space and are left out; [r] is the
    tee of [f] into the two hashes and is folded into [readFull]. *)

Record Indexer : Type := mkIndexer {
  z_ModTime : Z;
  z_Name : list byte;
  z_flags : Z;
  z_version : Z;
  z_libraryVersion : Z;
  z_method : Z;
  z_num_compressed_checksums : Z;
  z_num_decompressed_checksums : Z;
  z_f : File;
  z_indexes : list Z;
  z_adler32 : Z;
  z_crc32 : Z;
  z_err : option error
}.

Definition new_Indexer (f : File) : Indexer :=
  mkIndexer 0 [] 0 0 0 0 0 0 f [] 1 0 None.

Definition set_ModTime (v : Z) (z : Indexer) : Indexer :=
  mkIndexer v (z_Name z) (z_flags z) (z_version z) (z_libraryVersion z)
    (z_method z) (z_num_compressed_checksums z)
    (z_num_decompressed_checksums z) (z_f z) (z_indexes z) (z_adler32 z)
    (z_crc32 z) (z_err z).

Definition set_Name (v : list byte) (z : Indexer) : Indexer :=
  mkIndexer (z_ModTime z) v (z_flags z) (z_version z) (z_libraryVersion z)
    (z_method z) (z_num_compressed_checksums z)
    (z_num_decompressed_checksums z) (z_f z) (z_indexes z) (z_adler32 z)
    (z_crc32 z) (z_err z).

Definition set_flags (v : Z) (z : Indexer) : Indexer :=
  mkIndexer (z_ModTime z) (z_Name z) v (z_version z) (z_libraryVersion z)
    (z_method z) (z_num_compressed_checksums z)
    (z_num_decompressed_checksums z) (z_f z) (z_indexes z) (z_adler32 z)
    (z_crc32 z) (z_err z).

Definition set_version (v : Z) (z : Indexer) : Indexer :=
  mkIndexer (z_ModTime z) (z_Name z) (z_flags z) v (z_libraryVersion z)
    (z_method z) (z_num_compressed_checksums z)
    (z_num_decompressed_checksums z) (z_f z) (z_indexes z) (z_adler32 z)
    (z_crc32 z) (z_err z).

Definition set_libraryVersion (v : Z) (z : Indexer) : Indexer :=
  mkIndexer (z_ModTime z) (z_Name z) (z_flags z) (z_version z) v
    (z_method z) (z_num_compressed_checksums z)
    (z_num_decompressed_checksums z) (z_f z) (z_indexes z) (z_adler32 z)
    (z_crc32 z) (z_err z).

Definition set_method (v : Z) (z : Indexer) : Indexer :=
  mkIndexer (z_ModTime z) (z_Name z) (z_flags z) (z_version z)
    (z_libraryVersion z) v (z_num_compressed_checksums z)
    (z_num_decompressed_checksums z) (z_f z) (z_indexes z) (z_adler32 z)
    (z_crc32 z) (z_err z).

Definition set_num_compressed_checksums (v : Z) (z : Indexer) : Indexer :=
  mkIndexer (z_ModTime z) (z_Name z) (z_flags z) (z_version z)
    (z_libraryVersion z) (z_method z) v
    (z_num_decompressed_checksums z) (z_f z) (z_indexes z) (z_adler32 z)
    (z_crc32 z) (z_err z).

Definition set_num_decompressed_checksums (v : Z) (z : Indexer) : Indexer :=
  mkIndexer (z_ModTime z) (z_Name z) (z_flags z) (z_version z)
    (z_libraryVersion z) (z_method z) (z_num_compressed_checksums z)
    v (z_f z) (z_indexes z) (z_adler32 z) (z_crc32 z) (z_err z).

Definition set_f (v : File) (z : Indexer) : Indexer :=
  mkIndexer (z_ModTime z) (z_Name z) (z_flags z) (z_version z)
    (z_libraryVersion z) (z_method z) (z_num_compressed_checksums z)
    (z_num_decompressed_checksums z) v (z_indexes z) (z_adler32 z)
    (z_crc32 z) (z_err z).

Definition set_indexes (v : list Z) (z : Indexer) : Indexer :=
  mkIndexer (z_ModTime z) (z_Name z) (z_flags z) (z_version z)
    (z_libraryVersion z) (z_method z) (z_num_compressed_checksums z)
    (z_num_decompressed_checksums z) (z_f z) v (z_adler32 z)
    (z_crc32 z) (z_err z).

Definition set_adler32 (v : Z) (z : Indexer) : Indexer :=
  mkIndexer (z_ModTime z) (z_Name z) (z_flags z) (z_version z)
    (z_libraryVersion z) (z_method z) (z_num_compressed_checksums z)
    (z_num_decompressed_checksums z) (z_f z) (z_indexes z) v
    (z_crc32 z) (z_err z).

Definition set_crc32 (v : Z) (z : Indexer) : Indexer :=
  mkIndexer (z_ModTime z) (z_Name z) (z_flags z) (z_version z)
    (z_libraryVersion z) (z_method z) (z_num_compressed_checksums z)
    (z_num_decompressed_checksums z) (z_f z) (z_indexes z) (z_adler32 z)
    v (z_err z).

Definition set_err (v : option error) (z : Indexer) : Indexer :=
  mkIndexer (z_ModTime z) (z_Name z) (z_flags z) (z_version z)
    (z_libraryVersion z) (z_method z) (z_num_compressed_checksums z)
    (z_num_decompressed_checksums z) (z_f z) (z_indexes z) (z_adler32 z)
    (z_crc32 z) v.

(** ** A state and error monad for the methods of [Indexer] *)

Definition M (A : Type) : Type := Indexer -> Indexer * (error + A).

Definition ret {A} (a : A) : M A := fun z => (z, inr a).
Definition fail {A} (e : error) : M A := fun z => (z, inl e).
Definition bind {A B} (m : M A) (k : A -> M B) : M B :=
  fun z =>
    match m z with
    | (z', inr a) => k a z'
    | (z', inl e) => (z', inl e)
    end.
Definition get : M Indexer := fun z => (z, inr z).
Definition modify (g : Indexer -> Indexer) : M unit := fun z => (g z, inr tt).

Notation "x <- m ;; k" := (bind m (fun x => k))
  (at level 61, m at next level, right associativity).
Notation "m ;;; k" := (bind m (fun _ => k))
  (at level 61, right associativity).

(** [io.ReadFull(z.r, buf[0:n])]: the tee reader passes the bytes it
    got to both hashes, also on a short read; the error is [io.EOF]
    when nothing was read and [io.ErrUnexpectedEOF] after a partial
    read.  A request for no bytes succeeds without reading. *)
Definition tee (bs : list byte) (f' : File) (z : Indexer) : Indexer :=
  set_crc32 (crc32_update (z_crc32 z) bs)
    (set_adler32 (adler32_update (z_adler32 z) bs) (set_f f' z)).

Definition readFull (n : nat) : M (list byte) :=
  fun z =>
    let '(bs, f') := File_Read n (z_f z) in
    let z' := tee bs f' z in
    if Nat.eqb (length bs) n then (z', inr bs)
    else if Nat.eqb (length bs) 0 then (z', inl io_EOF)
    else (z', inl io_ErrUnexpectedEOF).

(** [z.read(&x)], that is [binary.Read(z.r, binary.BigEndian, &x)],
    at the three widths the code uses. *)
Definition read_uint8 : M Z := bs <- readFull 1 ;; ret (Uint8 bs).
Definition read_uint16 : M Z := bs <- readFull 2 ;; ret (Uint16 bs).
Definition read_uint32 : M Z := bs <- readFull 4 ;; ret (Uint32 bs).

Definition bytes_of_string (s : string) : list byte := list_byte_of_string s.


(** ** [readHeader]

    The comparisons that gate the optional fields test the package
    constant [version], as the Go code does, not the field
    [z_version] read from the stream. *)

Definition when (c : bool) (m : M unit) : M unit := if c then m else ret tt.

Definition readHeader : M unit :=
  (* Read and check magic *)
  magic <- readFull (length lzoMagic) ;;
  when (negb (bytes_Equal magic lzoMagic))
    (fail (errors_New "lzo: invalid header")) ;;;
  modify (set_crc32 0) ;;;
  modify (set_adler32 1) ;;;
  (* Read version *)
  v <- read_uint16 ;;
  modify (set_version v) ;;;
  when (version <? 0x0900) (fail (errors_New "lzo: invalid header")) ;;;
  (* Read library version needed to extract *)
  lv <- read_uint16 ;;
  modify (set_libraryVersion lv) ;;;
  when (version >=? 0x0940)
    (lv' <- read_uint16 ;;
     modify (set_libraryVersion lv') ;;;
     z <- get ;;
     when (z_libraryVersion z >? z_version z)
       (fail (errors_New "lzo: incompatible version")) ;;;
     when (z_libraryVersion z <? 0x0900)
       (fail (errors_New "lzo: invalid header"))) ;;;
  (* Read method *)
  m <- read_uint8 ;;
  modify (set_method m) ;;;
  (* Read level *)
  when (version >=? 0x0940) (_ <- read_uint8 ;; ret tt) ;;;
  (* Read flags *)
  fl <- read_uint32 ;;
  modify (set_flags fl) ;;;
  (* Read filters *)
  when (negb (Z.land fl flagFilter =? 0)) (_ <- read_uint32 ;; ret tt) ;;;
  (* num_compressed_checksums *)
  modify (set_num_compressed_checksums 0) ;;;
  when (negb (Z.land fl flagAdler32C =? 0))
    (modify (fun z => set_num_compressed_checksums
                        (z_num_compressed_checksums z + 1) z)) ;;;
  when (negb (Z.land fl flagCRC32C =? 0))
    (modify (fun z => set_num_compressed_checksums
                        (z_num_compressed_checksums z + 1) z)) ;;;
  (* num_decompressed_checksums *)
  modify (set_num_decompressed_checksums 0) ;;;
  when (negb (Z.land fl flagAdler32D =? 0))
    (modify (fun z => set_num_decompressed_checksums
                        (z_num_decompressed_checksums z + 1) z)) ;;;
  when (negb (Z.land fl flagCRC32D =? 0))
    (modify (fun z => set_num_decompressed_checksums
                        (z_num_decompressed_checksums z + 1) z)) ;;;
  (* Read mode *)
  _ <- read_uint32 ;;
  (* Read modification times *)
  modTime <- read_uint32 ;;
  modify (set_ModTime modTime) ;;;
  when (version >=? 0x0940) (_ <- read_uint32 ;; ret tt) ;;;
  when (version <? 0x0120) (modify (set_ModTime 0)) ;;;
  (* Read name *)
  l <- read_uint8 ;;
  when (l >? 0)
    (name <- readFull (Z.to_nat l) ;; modify (set_Name name)) ;;;
  (* Read and check header checksum *)
  z <- get ;;
  checksum <-
    (if negb (Z.land (z_flags z) flagCRC32 =? 0)
     then modify (set_crc32 0) ;;; ret (z_crc32 z)
     else modify (set_adler32 1) ;;; ret (z_adler32 z)) ;;
  checksumHeader <- read_uint32 ;;
  when (negb (checksumHeader =? checksum))
    (fail (errors_New "lzo: invalid header")) ;;;
  z <- get ;;
  when (z_method z <=? 0) (fail (errors_New "lzo: incompatible method")) ;;;
  ret tt.

(** [NewIndexer] returns the pair of the Go function: a nil pointer
    and the error when the header is refused. *)
Definition NewIndexer (f : File) : error + Indexer :=
  match readHeader (new_Indexer f) with
  | (_, inl e) => inl e
  | (z, inr _) => inr z
  end.

(** ** [findBlock]

    The method returns [z.err]; the state comes back with it.  The
    [fmt.Println] of the position goes to standard output and is left
    out.  The arithmetic on [uint] and [int64] wraps as in Go. *)

Definition findBlock (z : Indexer) : Indexer * option error :=
  (* Read uncompressed block size *)
  match read_uint32 z with
  | (z, inl e) => (set_err (Some e) z, Some e)
  | (z, inr dstLen) =>
    let z := set_err None z in
    if dstLen =? 0 then (set_err (Some io_EOF) z, Some io_EOF)
    else
      (* Read compressed block size *)
      match read_uint32 z with
      | (z, inl e) => (set_err (Some e) z, Some e)
      | (z, inr srcLen) =>
        let z := set_err None z in
        if (srcLen <=? 0) || (srcLen >? dstLen) then
          let e := errors_New "lzo: data corruption" in
          (set_err (Some e) z, Some e)
        else
          let num_chksms_to_skip := z_num_decompressed_checksums z in
          let num_chksms_to_skip :=
            if dstLen =? srcLen
            then to_uint64 (num_chksms_to_skip + z_num_compressed_checksums z)
            else num_chksms_to_skip in
          let skip := to_uint64 (4 * num_chksms_to_skip) in
          match File_Seek_CUR0 (z_f z) with
          | (_, Some e) => (set_err (Some e) z, Some e)
          | (position, None) =>
            let z := set_err None z in
            let block_start := wrap64 (position - 8) in
            let next_block := wrap64 (wrap64 (position + srcLen) + wrap64 skip) in
            let z := set_indexes (z_indexes z ++ [block_start]) z in
            let z := set_f (fst (File_Seek_SET next_block (z_f z))) z in
            (z, None)
          end
      end
  end.

(** The [for] loop of [CreateIndex]: call [findBlock] until [z.err]
    is set.  [None] stands for a loop that did not end within [fuel]
    iterations. *)
Fixpoint scan (fuel : nat) (z : Indexer) : option Indexer :=
  match fuel with
  | O => None
  | S fuel' =>
      let z' := fst (findBlock z) in
      match z_err z' with
      | Some _ => Some z'
      | None => scan fuel' z'
      end
  end.

(** ** The file system and [CreateIndex] *)

Record Node : Type := mkNode {
  node_contents : list byte;
  node_seekable : bool
}.

(** Names are looked up as they are; [creatable] tells whether
    [os.Create] may create or truncate a name. *)
Record FS : Type := mkFS {
  files : string -> option Node;
  creatable : string -> bool
}.

Definition os_Open (name : string) (fs : FS) : error + File :=
  match files fs name with
  | Some nd => inr (mkFile (node_contents nd) 0 (node_seekable nd))
  | None => inl (PathError "open")
  end.

Definition put_file (name : string) (nd : Node) (fs : FS) : FS :=
  mkFS (fun n => if String.eqb n name then Some nd else files fs n)
       (creatable fs).

(** [os.Create]: the file exists and is empty from here on. *)
Definition os_Create (name : string) (fs : FS) : error + FS :=
  if creatable fs name then inr (put_file name (mkNode [] true) fs)
  else inl (PathError "open").

(** [indexfile.Write(b)] on the handle [os.Create] returned: the bytes
    go to the end of what was written so far. *)
Definition File_Write (name : string) (b : list byte) (fs : FS) : FS :=
  match files fs name with
  | Some nd => put_file name (mkNode (node_contents nd ++ b) (node_seekable nd)) fs
  | None => fs
  end.

(** [binary.BigEndian.PutUint64(b, v)]: the library indexes [b[7]]
    first, so a slice shorter than 8 bytes is a run-time panic,
    [None] here. *)
Definition PutUint64 (b : list byte) (v : Z) : option (list byte) :=
  if (length b <? 8)%nat then None
  else Some ([z2b (Z.shiftr v 56); z2b (Z.shiftr v 48); z2b (Z.shiftr v 40);
              z2b (Z.shiftr v 32); z2b (Z.shiftr v 24); z2b (Z.shiftr v 16);
              z2b (Z.shiftr v 8); z2b v] ++ skipn 8 b).

Inductive panic : Type :=
| nil_pointer_dereference
| index_out_of_range.

Inductive outcome : Type :=
| Returns (err : option error)
| Panics (p : panic).

(** The [range] loop over [indexer.indexes]. *)
Fixpoint write_indexes (name : string) (l : list Z) (fs : FS)
  : FS * option panic :=
  match l with
  | [] => (fs, None)
  | num :: l' =>
      let tmp : list byte := [] in
      match PutUint64 tmp (to_uint64 num) with
      | None => (fs, Some index_out_of_range)
      | Some tmp' => write_indexes name l' (File_Write name tmp' fs)
      end
  end.

(** Enough iterations for the scan of a file: a block that is
    accepted moves the cursor forward by at least 8 bytes. *)
Definition scan_fuel (f : File) : nat := S (length (contents f)).

(** [CreateIndex]: the result is the file system afterwards and how
    the call ended; [None] only if the scan loop did not end within
    [scan_fuel].  The error of [NewIndexer] is dropped as in the Go
    code, and a nil [indexer] makes [indexer.findBlock()] panic.  The
    deferred [Close] calls change neither the files nor the result. *)
Definition CreateIndex (filename : string) (fs : FS) : option (FS * outcome) :=
  let index_file_name := (filename ++ ".index")%string in
  match os_Open filename fs with
  | inl err => Some (fs, Returns (Some err))
  | inr lzofile =>
    match os_Create index_file_name fs with
    | inl err => Some (fs, Returns (Some err))
    | inr fs =>
      match NewIndexer lzofile with
      | inl _ => Some (fs, Panics nil_pointer_dereference)
      | inr indexer =>
        match scan (scan_fuel lzofile) indexer with
        | None => None
        | Some indexer =>
          match z_err indexer with
          | Some io_EOF =>
            match write_indexes index_file_name (z_indexes indexer) fs with
            | (fs, Some p) => Some (fs, Panics p)
            | (fs, None) => Some (fs, Returns None)
            end
          | e => Some (fs, Returns e)
          end
        end
      end
    end
  end.

(** ** Sample streams *)

Definition PutUint16 (v : Z) : list byte := [z2b (Z.shiftr v 8); z2b v].
Definition PutUint32 (v : Z) : list byte :=
  [z2b (Z.shiftr v 24); z2b (Z.shiftr v 16); z2b (Z.shiftr v 8); z2b v].

(** The header fields between the magic and the checksum, for the
    given format version, method and flags, with an empty name. *)
Definition sample_body (ver meth fl : Z) : list byte :=
  PutUint16 ver ++ PutUint16 0x0940 ++ PutUint16 0x0940 ++ [z2b meth; x05]
  ++ PutUint32 fl ++ PutUint32 0x81a4 ++ PutUint32 0x5f5e1000
  ++ PutUint32 0 ++ [x00].

Definition sample_header (ver meth fl : Z) : list byte :=
  lzoMagic ++ sample_body ver meth fl
  ++ PutUint32 (adler32_Checksum (sample_body ver meth fl)).

Definition sample_block (dstLen srcLen : Z) (rest : list byte) : list byte :=
  PutUint32 dstLen ++ PutUint32 srcLen ++ rest.

Definition sentinel : list byte := [x00; x00; x00; x00].

Definition sample_fs (data : list byte) : FS :=
  mkFS (fun n => if String.eqb n "a.lzo" then Some (mkNode data true) else None)
       (fun _ => true).

(** The indexer [NewIndexer] returns for a seekable file holding
    [data]. *)
Definition sample_indexer (data : list byte) : Indexer :=
  match NewIndexer (mkFile data 0 true) with
  | inr z => z
  | inl _ => new_Indexer (mkFile data 0 true)
  end.

(** ** Vocabulary of the statements *)

(** The handle [f] has read [pre] and [rest] lies ahead. *)
Definition positioned (f : File) (pre rest : list byte) : Prop :=
  contents f = pre ++ rest /\ offset f = Z.of_nat (length pre).

(** The big-endian [uint32] stored at offset [o] of [data], if the
    four bytes are there. *)
Definition u32_at (data : list byte) (o : Z) : option Z :=
  let bs := firstn 4 (skipn (Z.to_nat o) data) in
  if (0 <=? o) && Nat.eqb (length bs) 4 then Some (Uint32 bs) else None.

(** A block with both size fields present, not the sentinel, and
    sizes the scanner accepts. *)
Definition valid_block (data : list byte) (o : Z) : Prop :=
  exists dstLen srcLen,
    u32_at data o = Some dstLen /\ u32_at data (o + 4) = Some srcLen /\
    dstLen <> 0 /\ 0 < srcLen <= dstLen.

(** Number of four-byte checksum fields between the size fields and
    the payload of a block, from the two counts of the header. *)
Definition checksumsToSkip (ndec ncomp dstLen srcLen : Z) : Z :=
  ndec + (if srcLen =? dstLen then ncomp else 0).

(** A block as it lies in the stream. *)
Record Block : Type := mkBlock {
  blk_dstLen : list byte;
  blk_srcLen : list byte;
  blk_checksums : list byte;
  blk_payload : list byte
}.

Definition block_bytes (b : Block) : list byte :=
  blk_dstLen b ++ blk_srcLen b ++ blk_checksums b ++ blk_payload b.

Definition block_wf (ndec ncomp : Z) (b : Block) : Prop :=
  length (blk_dstLen b) = 4%nat /\ length (blk_srcLen b) = 4%nat /\
  0 < Uint32 (blk_srcLen b) <= Uint32 (blk_dstLen b) /\
  Z.of_nat (length (blk_checksums b))
    = 4 * checksumsToSkip ndec ncomp
            (Uint32 (blk_dstLen b)) (Uint32 (blk_srcLen b)) /\
  Z.of_nat (length (blk_payload b)) = Uint32 (blk_srcLen b).

(** Where each block of a sequence laid out from offset [p] starts. *)
Fixpoint block_offsets (p : Z) (bs : list Block) : list Z :=
  match bs with
  | [] => []
  | b :: bs' => p :: block_offsets (p + Z.of_nat (length (block_bytes b))) bs'
  end.

(** The counts [readHeader] derives from the flags stay within 0..2. *)
Definition counts_ok (z : Indexer) : Prop :=
  0 <= z_num_decompressed_checksums z <= 2 /\
  0 <= z_num_compressed_checksums z <= 2.

(** The handle after [n] more bytes were read, and the indexer after
    the tee reader delivered [bs]. *)
Definition advance (n : nat) (f : File) : File :=
  mkFile (contents f) (offset f + Z.of_nat n) (seekable f).

Definition consume (bs : list byte) (z : Indexer) : Indexer :=
  tee bs (advance (length bs) (z_f z)) z.

(** Partial correctness of a method: if [m] returns without error
    the result and the state satisfy [Q]. *)
Definition wp {A} (m : M A) (Q : A -> Indexer -> Prop) (z : Indexer) : Prop :=
  match m z with
  | (z', inr a) => Q a z'
  | (_, inl _) => True
  end.

(** [I] survives [m], whether [m] fails or not. *)
Definition stable (I : Indexer -> Prop) {A} (m : M A) : Prop :=
  forall z, I z -> I (fst (m z)).

(** What [readHeader] leaves alone, relative to the state [z0] it
    started from. *)
Definition same_stream (z0 z : Indexer) : Prop :=
  contents (z_f z) = contents (z_f z0) /\
  seekable (z_f z) = seekable (z_f z0) /\
  z_indexes z = z_indexes z0 /\
  z_err z = z_err z0 /\
  offset (z_f z0) <= offset (z_f z).

Definition count_flags (fl a b : Z) : Z :=
  (if Z.land fl a =? 0 then 0 else 1) + (if Z.land fl b =? 0 then 0 else 1).

(** The checksum counts as [readHeader] derives them from the flags. *)
Definition header_counts (z : Indexer) : Prop :=
  z_num_compressed_checksums z
  = count_flags (z_flags z) flagAdler32C flagCRC32C /\
  z_num_decompressed_checksums z
  = count_flags (z_flags z) flagAdler32D flagCRC32D.


(** [Close]: [io.EOF] is the clean end of the scan and is not
    reported. *)
Definition Close (z : Indexer) : option error :=
  match z_err z with
  | Some io_EOF => None
  | e => e
  end.

(** Every error [m] can return satisfies [E]. *)
Definition fails_within (E : error -> Prop) {A} (m : M A) : Prop :=
  forall z, match snd (m z) with inl e => E e | inr _ => True end.

(** The errors of the header parser and of the block scanner. *)
Definition header_error (e : error) : Prop :=
  e = io_EOF \/ e = io_ErrUnexpectedEOF \/ FormatError e.

Definition scan_error (e : error) : Prop :=
  e = io_EOF \/ e = io_ErrUnexpectedEOF \/ CorruptionError e \/
  e = PathError "seek".

(** The version fields of an accepted header. *)
Definition versions_ok (z : Indexer) : Prop :=
  0x0900 <= z_libraryVersion z <= z_version z.

(** The cursor lies inside the file. *)
Definition within (z : Indexer) : Prop :=
  0 <= offset (z_f z) <= Z.of_nat (length (contents (z_f z))).

(** If [m] returns without error it has moved the cursor forward by
    at least [n] bytes and not past the end of the file. *)
Definition advances (n : Z) {A} (m : M A) : Prop :=
  forall z z' a, m z = (z', inr a) -> within z ->
    within z' /\ offset (z_f z) + n <= offset (z_f z').

(** * Properties *)

(** ** The checksums agree with the reference values *)

Example crc32_check :
  crc32_ChecksumIEEE (bytes_of_string "123456789") = 0xCBF43926.
Proof. vm_compute. reflexivity. Qed.

Example adler32_check :
  adler32_Checksum (bytes_of_string "Wikipedia") = 0x11E60398.
Proof. vm_compute. reflexivity. Qed.

(** ** Bytes and integers *)

Lemma b2z_range (b : byte) : 0 <= b2z b < 256.
Proof.
  unfold b2z. pose proof (Byte.to_N_bounded b). lia.
Qed.

Lemma lor_range (n a b : Z) :
  0 <= n -> 0 <= a < 2 ^ n -> 0 <= b < 2 ^ n -> 0 <= Z.lor a b < 2 ^ n.
Proof.
  intros Hn Ha Hb. split.
  - apply Z.lor_nonneg. lia.
  - destruct (Z.eq_dec (Z.lor a b) 0) as [E | E].
    + rewrite E. lia.
    + apply Z.log2_lt_pow2.
      * assert (0 <= Z.lor a b) by (apply Z.lor_nonneg; lia). lia.
      * rewrite Z.log2_lor by lia.
        destruct (Z.eq_dec a 0) as [Ea | Ea]; destruct (Z.eq_dec b 0) as [Eb | Eb];
          subst; try (exfalso; apply E; reflexivity).
        -- rewrite Z.max_r by (cbn; apply Z.log2_nonneg).
           apply Z.log2_lt_pow2; lia.
        -- rewrite Z.max_l by (cbn; apply Z.log2_nonneg).
           apply Z.log2_lt_pow2; lia.
        -- apply Z.max_lub_lt; apply Z.log2_lt_pow2; lia.
Qed.

Lemma shiftl_byte_range (b : byte) (k n : Z) :
  0 <= k -> k + 8 <= n -> 0 <= Z.shiftl (b2z b) k < 2 ^ n.
Proof.
  intros Hk Hn. pose proof (b2z_range b) as Hb.
  rewrite Z.shiftl_mul_pow2 by lia.
  assert (0 < 2 ^ k) by (apply Z.pow_pos_nonneg; lia).
  split; [nia|].
  apply Z.lt_le_trans with (2 ^ (k + 8)).
  - rewrite Z.pow_add_r by lia. change (2 ^ 8) with 256. nia.
  - apply Z.pow_le_mono_r; lia.
Qed.

Lemma Uint32_range (b : list byte) : 0 <= Uint32 b < 2 ^ 32.
Proof.
  unfold Uint32.
  destruct b as [|b0 [|b1 [|b2 [|b3 [|? ?]]]]]; try (cbn; lia).
  repeat apply lor_range; try lia;
    try (apply shiftl_byte_range; lia).
  pose proof (b2z_range b3). lia.
Qed.

Lemma Uint16_range (b : list byte) : 0 <= Uint16 b < 2 ^ 16.
Proof.
  unfold Uint16.
  destruct b as [|b0 [|b1 [|? ?]]]; try (cbn; lia).
  apply lor_range; try lia; try (apply shiftl_byte_range; lia).
  pose proof (b2z_range b1). lia.
Qed.

Lemma Uint8_range (b : list byte) : 0 <= Uint8 b < 2 ^ 8.
Proof.
  unfold Uint8.
  destruct b as [|b0 [|? ?]]; try (cbn; lia).
  pose proof (b2z_range b0). cbn. lia.
Qed.

Lemma wrap64_small (x : Z) : - 2 ^ 63 <= x < 2 ^ 63 -> wrap64 x = x.
Proof.
  intros H. unfold wrap64. rewrite Z.mod_small; lia.
Qed.

Lemma to_uint64_small (x : Z) : 0 <= x < 2 ^ 64 -> to_uint64 x = x.
Proof.
  intros H. unfold to_uint64. apply Z.mod_small. lia.
Qed.

Lemma bytes_Equal_eq (a b : list byte) : bytes_Equal a b = true <-> a = b.
Proof.
  revert b. induction a as [|x a IH]; intros [|y b]; cbn; split; intros H;
    try reflexivity; try discriminate.
  - apply andb_true_iff in H. destruct H as [Hx Ha].
    apply Byte.byte_dec_bl in Hx. apply IH in Ha. congruence.
  - inversion H; subst. apply andb_true_iff. split.
    + apply Byte.byte_dec_lb. reflexivity.
    + apply IH. reflexivity.
Qed.

(** ** The running checksums are checksums of what was read *)

Lemma adler32_update_app (d : Z) (p q : list byte) :
  adler32_update (adler32_update d p) q = adler32_update d (p ++ q).
Proof.
  unfold adler32_update. rewrite fold_left_app. reflexivity.
Qed.

Lemma lxor_cancel (x m : Z) : Z.lxor (Z.lxor x m) m = x.
Proof.
  rewrite Z.lxor_assoc, Z.lxor_nilpotent, Z.lxor_0_r. reflexivity.
Qed.

Lemma crc32_update_app (c : Z) (p q : list byte) :
  crc32_update (crc32_update c p) q = crc32_update c (p ++ q).
Proof.
  unfold crc32_update. rewrite lxor_cancel, fold_left_app. reflexivity.
Qed.

Lemma adler32_update_nil (d : Z) : adler32_update d [] = d.
Proof. reflexivity. Qed.

Lemma crc32_update_nil (c : Z) : crc32_update c [] = c.
Proof. unfold crc32_update. cbn [fold_left]. apply lxor_cancel. Qed.

(** ** Reading at a known position *)

Lemma positioned_advance (f : File) (pre bs rest : list byte) :
  positioned f pre (bs ++ rest) ->
  positioned (advance (length bs) f) (pre ++ bs) rest.
Proof.
  intros [Hc Ho]. split; cbn.
  - rewrite Hc, app_assoc. reflexivity.
  - rewrite Ho, length_app. lia.
Qed.

Lemma File_Read_positioned (f : File) (pre bs rest : list byte) :
  positioned f pre (bs ++ rest) ->
  File_Read (length bs) f = (bs, advance (length bs) f).
Proof.
  intros [Hc Ho]. unfold File_Read, advance.
  rewrite Hc, Ho, Nat2Z.id.
  rewrite skipn_app, skipn_all, Nat.sub_diag. cbn [skipn app].
  rewrite firstn_app, firstn_all, Nat.sub_diag. cbn [firstn].
  rewrite app_nil_r. reflexivity.
Qed.

Lemma readFull_positioned (z : Indexer) (pre bs rest : list byte) (n : nat) :
  positioned (z_f z) pre (bs ++ rest) -> length bs = n ->
  readFull n z = (consume bs z, inr bs).
Proof.
  intros H Hn. subst n. unfold readFull.
  rewrite (File_Read_positioned _ _ _ _ H).
  rewrite Nat.eqb_refl. reflexivity.
Qed.

(** What a read does in general: it returns the bytes at the cursor,
    all [n] of them or an error, and touches nothing but the cursor
    and the hashes. *)
Lemma readFull_cases (n : nat) (z : Indexer) :
  let bs := firstn n (skipn (Z.to_nat (offset (z_f z))) (contents (z_f z))) in
  readFull n z
  = (consume bs z,
     if Nat.eqb (length bs) n then inr bs
     else if Nat.eqb (length bs) 0 then inl io_EOF
     else inl io_ErrUnexpectedEOF).
Proof.
  cbv zeta. unfold readFull, File_Read, consume, advance.
  destruct (Nat.eqb _ n); [reflexivity|].
  destruct (Nat.eqb _ 0); reflexivity.
Qed.

Lemma read_uint32_cases (z : Indexer) :
  let bs := firstn 4 (skipn (Z.to_nat (offset (z_f z))) (contents (z_f z))) in
  read_uint32 z
  = (consume bs z,
     if Nat.eqb (length bs) 4 then inr (Uint32 bs)
     else if Nat.eqb (length bs) 0 then inl io_EOF
     else inl io_ErrUnexpectedEOF).
Proof.
  cbv zeta. unfold read_uint32, bind. rewrite readFull_cases.
  destruct (Nat.eqb _ 4); [reflexivity|].
  destruct (Nat.eqb _ 0); reflexivity.
Qed.

Lemma u32_at_Some (data : list byte) (o v : Z) :
  u32_at data o = Some v ->
  0 <= o /\
  length (firstn 4 (skipn (Z.to_nat o) data)) = 4%nat /\
  v = Uint32 (firstn 4 (skipn (Z.to_nat o) data)) /\
  o + 4 <= Z.of_nat (length data).
Proof.
  unfold u32_at. intros H.
  destruct (0 <=? o) eqn:Ho; [|discriminate].
  destruct (Nat.eqb _ 4) eqn:Hl; [|discriminate].
  cbn in H. inversion H; subst. apply Z.leb_le in Ho. apply Nat.eqb_eq in Hl.
  repeat split; auto.
  rewrite length_firstn, length_skipn in Hl. lia.
Qed.

Lemma firstn_exact (bs rest : list byte) (n : nat) :
  length bs = n -> firstn n (bs ++ rest) = bs.
Proof.
  intros <-. rewrite firstn_app, firstn_all, Nat.sub_diag.
  apply app_nil_r.
Qed.

Lemma skipn_exact (pre rest : list byte) :
  skipn (length pre) (pre ++ rest) = rest.
Proof.
  rewrite skipn_app, skipn_all, Nat.sub_diag. reflexivity.
Qed.

Lemma u32_at_app (pre bs rest : list byte) :
  length bs = 4%nat ->
  u32_at (pre ++ bs ++ rest) (Z.of_nat (length pre)) = Some (Uint32 bs).
Proof.
  intros Hl. unfold u32_at. rewrite Nat2Z.id, skipn_exact.
  rewrite (firstn_exact bs rest 4 Hl), Hl.
  replace (0 <=? Z.of_nat (length pre)) with true
    by (symmetry; apply Z.leb_le; lia).
  reflexivity.
Qed.

Lemma read_uint32_ok (z : Indexer) (v : Z) :
  u32_at (contents (z_f z)) (offset (z_f z)) = Some v ->
  exists bs, length bs = 4%nat /\ read_uint32 z = (consume bs z, inr v).
Proof.
  intros H. apply u32_at_Some in H. destruct H as (_ & Hl & Hv & _).
  eexists. split; [exact Hl|].
  rewrite read_uint32_cases. cbv zeta. rewrite Hl, Hv. reflexivity.
Qed.

Lemma read_uint32_fail (z : Indexer) :
  0 <= offset (z_f z) ->
  u32_at (contents (z_f z)) (offset (z_f z)) = None ->
  exists bs e, read_uint32 z = (consume bs z, inl e) /\
               (e = io_EOF \/ e = io_ErrUnexpectedEOF).
Proof.
  intros Ho H. unfold u32_at in H.
  replace (0 <=? offset (z_f z)) with true in H
    by (symmetry; apply Z.leb_le; lia).
  cbn [andb] in H. rewrite read_uint32_cases. cbv zeta.
  destruct (Nat.eqb _ 4); [discriminate|].
  destruct (Nat.eqb _ 0); eauto.
Qed.

(** ** One step of the scanner *)

Lemma findBlock_accept (z : Indexer) (dstLen srcLen : Z) :
  let p := offset (z_f z) in
  let data := contents (z_f z) in
  u32_at data p = Some dstLen -> u32_at data (p + 4) = Some srcLen ->
  dstLen <> 0 -> 0 < srcLen <= dstLen ->
  seekable (z_f z) = true -> counts_ok z -> p < 2 ^ 62 ->
  exists z',
    findBlock z = (z', None) /\
    z_err z' = None /\
    z_indexes z' = z_indexes z ++ [p] /\
    offset (z_f z')
    = p + 8
      + 4 * checksumsToSkip (z_num_decompressed_checksums z)
              (z_num_compressed_checksums z) dstLen srcLen
      + srcLen /\
    contents (z_f z') = data /\
    seekable (z_f z') = true /\
    z_num_decompressed_checksums z' = z_num_decompressed_checksums z /\
    z_num_compressed_checksums z' = z_num_compressed_checksums z.
Proof.
  intros p data Hd Hs Hd0 Hsd Hseek [Hnd Hnc] Hp.
  pose proof (u32_at_Some _ _ _ Hd) as (Hp0 & _ & Hdv & _).
  pose proof (u32_at_Some _ _ _ Hs) as (_ & _ & Hsv & _).
  assert (Hdr : 0 <= dstLen < 2 ^ 32) by (rewrite Hdv; apply Uint32_range).
  assert (Hsr : 0 <= srcLen < 2 ^ 32) by (rewrite Hsv; apply Uint32_range).
  destruct (read_uint32_ok z dstLen Hd) as (b1 & Hb1 & R1).
  unfold findBlock. rewrite R1.
  replace (dstLen =? 0) with false by (symmetry; apply Z.eqb_neq; lia).
  set (z1 := set_err None (consume b1 z)).
  assert (Hs1 : u32_at (contents (z_f z1)) (offset (z_f z1)) = Some srcLen).
  { cbn. rewrite Hb1. exact Hs. }
  destruct (read_uint32_ok z1 srcLen Hs1) as (b2 & Hb2 & R2).
  rewrite R2.
  replace (srcLen <=? 0) with false by (symmetry; apply Z.leb_gt; lia).
  replace (srcLen >? dstLen) with false
    by (symmetry; rewrite Z.gtb_ltb; apply Z.ltb_ge; lia).
  cbn [orb]. unfold File_Seek_CUR0, File_Seek_SET.
  cbn [z_f set_err consume tee set_crc32 set_adler32 set_f advance seekable
       offset contents z1 z_indexes set_indexes fst z_err
       z_num_decompressed_checksums z_num_compressed_checksums].
  rewrite Hseek, Hb1, Hb2. fold p.
  set (n := if dstLen =? srcLen then _ else _).
  assert (Hn : n = checksumsToSkip (z_num_decompressed_checksums z)
                     (z_num_compressed_checksums z) dstLen srcLen).
  { subst n. unfold checksumsToSkip. rewrite (Z.eqb_sym srcLen dstLen).
    destruct (dstLen =? srcLen); [|lia].
    apply to_uint64_small. lia. }
  assert (Hn4 : 0 <= n <= 4).
  { rewrite Hn. unfold checksumsToSkip. destruct (srcLen =? dstLen); lia. }
  rewrite (to_uint64_small (4 * n)) by lia.
  rewrite (wrap64_small (4 * n)) by lia.
  rewrite (wrap64_small (p + _ + _ + srcLen)) by (change (Z.of_nat 4) with 4; lia).
  rewrite (wrap64_small (_ + 4 * n)) by (change (Z.of_nat 4) with 4; lia).
  rewrite (wrap64_small (_ - 8)) by (change (Z.of_nat 4) with 4; lia).
  change (Z.of_nat 4) with 4.
  replace (p + 4 + 4 + srcLen + 4 * n <? 0) with false
    by (symmetry; apply Z.ltb_ge; lia).
  eexists. split; [reflexivity|].
  cbn. rewrite <- Hn. repeat split; try reflexivity.
  - f_equal. f_equal. lia.
  - lia.
Qed.

Lemma read_uint32_shape (z : Indexer) :
  exists bs r, read_uint32 z = (consume bs z, r).
Proof.
  rewrite read_uint32_cases. cbv zeta. eauto.
Qed.

(** Whatever happens, [findBlock] returns [z.err], keeps the file
    contents and the checksum counts, and extends the offset list
    only when it returns [nil]. *)
Lemma findBlock_frame (z : Indexer) :
  z_err (fst (findBlock z)) = snd (findBlock z) /\
  contents (z_f (fst (findBlock z))) = contents (z_f z) /\
  seekable (z_f (fst (findBlock z))) = seekable (z_f z) /\
  z_num_decompressed_checksums (fst (findBlock z))
    = z_num_decompressed_checksums z /\
  z_num_compressed_checksums (fst (findBlock z))
    = z_num_compressed_checksums z /\
  (snd (findBlock z) <> None ->
   z_indexes (fst (findBlock z)) = z_indexes z).
Proof.
  destruct (read_uint32_shape z) as (b1 & r1 & R1).
  unfold findBlock. rewrite R1.
  destruct r1 as [e|d]; [cbn; repeat split; reflexivity|].
  destruct (d =? 0); [cbn; repeat split; reflexivity|].
  destruct (read_uint32_shape (set_err None (consume b1 z))) as (b2 & r2 & R2).
  rewrite R2.
  destruct r2 as [e|s]; [cbn; repeat split; reflexivity|].
  destruct (_ || _); [cbn; repeat split; reflexivity|].
  unfold File_Seek_CUR0, File_Seek_SET. cbn [z_f set_err consume tee
    set_crc32 set_adler32 set_f advance seekable set_indexes].
  destruct (seekable (z_f z)) eqn:E;
    [|cbn; rewrite ?E; repeat split; reflexivity].
  destruct (_ <? 0); cbn; rewrite ?E; repeat split; try reflexivity;
    intros H; exfalso; apply H; reflexivity.
Qed.

Lemma findBlock_no_dstLen (z : Indexer) :
  0 <= offset (z_f z) ->
  u32_at (contents (z_f z)) (offset (z_f z)) = None ->
  snd (findBlock z) = Some io_EOF \/
  snd (findBlock z) = Some io_ErrUnexpectedEOF.
Proof.
  intros Ho H. destruct (read_uint32_fail z Ho H) as (bs & e & R & He).
  unfold findBlock. rewrite R. cbn. destruct He; subst; auto.
Qed.

Lemma findBlock_sentinel (z : Indexer) :
  u32_at (contents (z_f z)) (offset (z_f z)) = Some 0 ->
  snd (findBlock z) = Some io_EOF.
Proof.
  intros H. destruct (read_uint32_ok z 0 H) as (bs & _ & R).
  unfold findBlock. rewrite R. reflexivity.
Qed.

Lemma findBlock_no_srcLen (z : Indexer) (dstLen : Z) :
  u32_at (contents (z_f z)) (offset (z_f z)) = Some dstLen ->
  dstLen <> 0 ->
  u32_at (contents (z_f z)) (offset (z_f z) + 4) = None ->
  snd (findBlock z) = Some io_EOF \/
  snd (findBlock z) = Some io_ErrUnexpectedEOF.
Proof.
  intros Hd Hd0 Hs.
  pose proof (u32_at_Some _ _ _ Hd) as (Hp0 & _).
  destruct (read_uint32_ok z dstLen Hd) as (b1 & Hb1 & R1).
  unfold findBlock. rewrite R1.
  replace (dstLen =? 0) with false by (symmetry; apply Z.eqb_neq; lia).
  set (z1 := set_err None (consume b1 z)).
  assert (Hs1 : u32_at (contents (z_f z1)) (offset (z_f z1)) = None).
  { cbn. rewrite Hb1. exact Hs. }
  assert (Ho1 : 0 <= offset (z_f z1)) by (cbn; lia).
  destruct (read_uint32_fail z1 Ho1 Hs1) as (bs & e & R & He).
  rewrite R. cbn. destruct He; subst; auto.
Qed.

(** With both size fields read and [dstLen] not the sentinel, the
    outcome depends on the sizes and on the position query only. *)
Lemma findBlock_sizes (z : Indexer) (dstLen srcLen : Z) :
  u32_at (contents (z_f z)) (offset (z_f z)) = Some dstLen ->
  u32_at (contents (z_f z)) (offset (z_f z) + 4) = Some srcLen ->
  dstLen <> 0 ->
  snd (findBlock z)
  = if (srcLen <=? 0) || (srcLen >? dstLen)
    then Some (errors_New "lzo: data corruption")
    else if seekable (z_f z) then None else Some (PathError "seek").
Proof.
  intros Hd Hs Hd0.
  destruct (read_uint32_ok z dstLen Hd) as (b1 & Hb1 & R1).
  unfold findBlock. rewrite R1.
  replace (dstLen =? 0) with false by (symmetry; apply Z.eqb_neq; lia).
  set (z1 := set_err None (consume b1 z)).
  assert (Hs1 : u32_at (contents (z_f z1)) (offset (z_f z1)) = Some srcLen).
  { cbn. rewrite Hb1. exact Hs. }
  destruct (read_uint32_ok z1 srcLen Hs1) as (b2 & Hb2 & R2).
  rewrite R2.
  destruct (_ || _); [reflexivity|].
  unfold File_Seek_CUR0. cbn [z_f set_err consume tee set_crc32 set_adler32
    set_f advance seekable z1].
  destruct (seekable (z_f z)); reflexivity.
Qed.

(** A call that returns [nil] has read a valid block. *)
Lemma findBlock_nil_inv (z : Indexer) :
  0 <= offset (z_f z) ->
  snd (findBlock z) = None ->
  seekable (z_f z) = true /\
  exists dstLen srcLen,
    u32_at (contents (z_f z)) (offset (z_f z)) = Some dstLen /\
    u32_at (contents (z_f z)) (offset (z_f z) + 4) = Some srcLen /\
    dstLen <> 0 /\ 0 < srcLen <= dstLen.
Proof.
  intros Ho H.
  destruct (u32_at (contents (z_f z)) (offset (z_f z))) as [d|] eqn:Hd.
  2:{ destruct (findBlock_no_dstLen z Ho Hd); congruence. }
  destruct (Z.eq_dec d 0) as [-> | Hd0].
  { rewrite (findBlock_sentinel z Hd) in H. discriminate. }
  destruct (u32_at (contents (z_f z)) (offset (z_f z) + 4)) as [s|] eqn:Hs.
  2:{ destruct (findBlock_no_srcLen z d Hd Hd0 Hs); congruence. }
  rewrite (findBlock_sizes z d s Hd Hs Hd0) in H.
  destruct (s <=? 0) eqn:E1; [discriminate|].
  destruct (s >? d) eqn:E2; [discriminate|].
  cbn [orb] in H.
  destruct (seekable (z_f z)); [|discriminate].
  split; [reflexivity|].
  exists d, s. apply Z.leb_gt in E1. rewrite Z.gtb_ltb in E2.
  apply Z.ltb_ge in E2. repeat split; auto; lia.
Qed.

(** ** The scan loop *)

(** After an accepted block the cursor is past its size fields. *)
Lemma findBlock_progress (z : Indexer) :
  0 <= offset (z_f z) -> counts_ok z ->
  Z.of_nat (length (contents (z_f z))) < 2 ^ 62 ->
  snd (findBlock z) = None ->
  let z' := fst (findBlock z) in
  valid_block (contents (z_f z)) (offset (z_f z)) /\
  z_err z' = None /\
  z_indexes z' = z_indexes z ++ [offset (z_f z)] /\
  offset (z_f z) + 8 < offset (z_f z') /\
  offset (z_f z) + 8 <= Z.of_nat (length (contents (z_f z))) /\
  contents (z_f z') = contents (z_f z) /\
  counts_ok z'.
Proof.
  intros Ho Hc Hlen Hnil. cbv zeta.
  destruct (findBlock_nil_inv z Ho Hnil) as (Hseek & d & s & Hd & Hs & Hd0 & Hsd).
  pose proof (u32_at_Some _ _ _ Hs) as (_ & _ & _ & Hfit).
  assert (Hp : offset (z_f z) < 2 ^ 62) by lia.
  destruct (findBlock_accept z d s Hd Hs Hd0 Hsd Hseek Hc Hp)
    as (z' & E & He & Hi & Hoff & Hcont & _ & Hnd & Hnc).
  rewrite E. cbn [fst].
  assert (0 <= checksumsToSkip (z_num_decompressed_checksums z)
                 (z_num_compressed_checksums z) d s).
  { destruct Hc. unfold checksumsToSkip. destruct (s =? d); lia. }
  assert (Hc' : counts_ok z').
  { unfold counts_ok in *. rewrite Hnd, Hnc. exact Hc. }
  repeat split; auto; try lia; try apply Hc'.
  exists d, s. auto.
Qed.

(** The loop ends: with one unit of fuel per remaining byte (and one
    to spare) [scan] returns. *)
Lemma scan_terminates (fuel : nat) : forall z : Indexer,
  0 <= offset (z_f z) -> counts_ok z ->
  Z.of_nat (length (contents (z_f z))) < 2 ^ 62 ->
  Z.of_nat (length (contents (z_f z))) - offset (z_f z) < Z.of_nat fuel ->
  (0 < fuel)%nat ->
  exists z', scan fuel z = Some z'.
Proof.
  induction fuel as [|fuel IH]; intros z Ho Hc Hlen Hfuel Hpos; [lia|].
  cbn [scan]. pose proof (findBlock_frame z) as (Herr & _).
  destruct (snd (findBlock z)) as [e|] eqn:E.
  - rewrite Herr. eauto.
  - rewrite Herr.
    destruct (findBlock_progress z Ho Hc Hlen E)
      as (_ & _ & _ & Hadv & Hfit & Hcont & Hc').
    apply IH; auto; try lia; rewrite Hcont; lia.
Qed.

(** Every offset the loop adds is the start of a valid block. *)
Lemma scan_added (fuel : nat) : forall z z' : Indexer,
  0 <= offset (z_f z) -> counts_ok z ->
  Z.of_nat (length (contents (z_f z))) < 2 ^ 62 ->
  scan fuel z = Some z' ->
  exists added,
    z_indexes z' = z_indexes z ++ added /\
    Forall (valid_block (contents (z_f z))) added /\
    Forall (fun o => offset (z_f z) <= o) added /\
    z_err z' <> None.
Proof.
  induction fuel as [|fuel IH]; intros z z' Ho Hc Hlen Hscan; [discriminate|].
  cbn [scan] in Hscan.
  pose proof (findBlock_frame z) as (Herr & _ & _ & _ & _ & Hsame).
  destruct (snd (findBlock z)) as [e|] eqn:E.
  - rewrite Herr in Hscan. inversion Hscan; subst z'.
    exists []. rewrite app_nil_r. repeat split; auto.
    + apply Hsame. discriminate.
    + rewrite Herr. discriminate.
  - rewrite Herr in Hscan.
    destruct (findBlock_progress z Ho Hc Hlen E)
      as (Hv & _ & Hi & Hadv & Hfit & Hcont & Hc').
    assert (Ho' : 0 <= offset (z_f (fst (findBlock z)))) by lia.
    assert (Hlen' : Z.of_nat (length (contents (z_f (fst (findBlock z)))))
                    < 2 ^ 62) by (rewrite Hcont; exact Hlen).
    destruct (IH _ _ Ho' Hc' Hlen' Hscan)
      as (added & Hadd & Hvalid & Hge & Hne).
    exists (offset (z_f z) :: added). repeat split; auto.
    + rewrite Hadd, Hi, <- app_assoc. reflexivity.
    + constructor; [exact Hv|]. rewrite <- Hcont. exact Hvalid.
    + constructor; [lia|]. eapply Forall_impl; [|exact Hge].
      cbn. intros; lia.
Qed.

(** More fuel than needed changes nothing. *)
Lemma scan_fuel_mono (fuel : nat) : forall (z z' : Indexer) (fuel' : nat),
  scan fuel z = Some z' -> (fuel <= fuel')%nat -> scan fuel' z = Some z'.
Proof.
  induction fuel as [|fuel IH]; intros z z' fuel' H Hle; [discriminate|].
  destruct fuel' as [|fuel']; [lia|].
  cbn [scan] in *. destruct (z_err (fst (findBlock z))); [exact H|].
  apply IH; [exact H | lia].
Qed.

(** ** Scanning a well-formed block sequence *)

Lemma block_bytes_length (nd nc : Z) (b : Block) :
  block_wf nd nc b ->
  Z.of_nat (length (block_bytes b))
  = 8 + 4 * checksumsToSkip nd nc (Uint32 (blk_dstLen b)) (Uint32 (blk_srcLen b))
    + Uint32 (blk_srcLen b).
Proof.
  intros (Hd & Hs & _ & Hc & Hp). unfold block_bytes.
  rewrite !length_app. lia.
Qed.

Lemma findBlock_block (z : Indexer) (pre tail : list byte) (b : Block) :
  positioned (z_f z) pre (block_bytes b ++ tail) ->
  block_wf (z_num_decompressed_checksums z) (z_num_compressed_checksums z) b ->
  seekable (z_f z) = true -> counts_ok z ->
  Z.of_nat (length (contents (z_f z))) < 2 ^ 62 ->
  exists z',
    findBlock z = (z', None) /\
    z_err z' = None /\
    z_indexes z' = z_indexes z ++ [Z.of_nat (length pre)] /\
    positioned (z_f z') (pre ++ block_bytes b) tail /\
    contents (z_f z') = contents (z_f z) /\
    seekable (z_f z') = true /\
    z_num_decompressed_checksums z' = z_num_decompressed_checksums z /\
    z_num_compressed_checksums z' = z_num_compressed_checksums z.
Proof.
  intros [Hdata Hoff] Hwf Hseek Hc Hlen.
  pose proof (block_bytes_length _ _ _ Hwf) as Hbl.
  destruct Hwf as (Hd & Hs & Hsd & Hck & Hpay).
  assert (Hd1 : u32_at (contents (z_f z)) (offset (z_f z))
                = Some (Uint32 (blk_dstLen b))).
  { rewrite Hdata, Hoff. unfold block_bytes. rewrite <- !app_assoc.
    apply u32_at_app. exact Hd. }
  assert (Hs1 : u32_at (contents (z_f z)) (offset (z_f z) + 4)
                = Some (Uint32 (blk_srcLen b))).
  { rewrite Hdata, Hoff. unfold block_bytes. rewrite <- !app_assoc.
    rewrite (app_assoc pre).
    replace (Z.of_nat (length pre) + 4)
      with (Z.of_nat (length (pre ++ blk_dstLen b)))
      by (rewrite length_app; lia).
    apply u32_at_app. exact Hs. }
  assert (Hfit : Z.of_nat (length pre) + Z.of_nat (length (block_bytes b))
                 <= Z.of_nat (length (contents (z_f z)))).
  { rewrite Hdata, !length_app. lia. }
  destruct (findBlock_accept z _ _ Hd1 Hs1 ltac:(lia) Hsd Hseek Hc ltac:(lia))
    as (z' & E & He & Hi & Ho' & Hcont & Hseek' & Hnd & Hnc).
  exists z'. repeat split; auto.
  - rewrite Hi, Hoff. reflexivity.
  - rewrite Hcont, Hdata, app_assoc. reflexivity.
  - rewrite Ho', Hoff, length_app. lia.
Qed.

Lemma findBlock_at_sentinel (z : Indexer) (pre rest : list byte) :
  positioned (z_f z) pre (sentinel ++ rest) ->
  snd (findBlock z) = Some io_EOF.
Proof.
  intros [Hdata Hoff]. apply findBlock_sentinel.
  rewrite Hdata, Hoff. apply (u32_at_app pre sentinel rest). reflexivity.
Qed.


(** ** Rules for the methods written in the monad *)

Section Rules.
Context {A B : Type}.

Lemma stable_ret (I : Indexer -> Prop) (a : A) : stable I (ret a).
Proof. intros z H. exact H. Qed.

Lemma stable_fail (I : Indexer -> Prop) (e : error) : stable I (@fail A e).
Proof. intros z H. exact H. Qed.

Lemma stable_bind (I : Indexer -> Prop) (m : M A) (k : A -> M B) :
  stable I m -> (forall a, stable I (k a)) -> stable I (bind m k).
Proof.
  intros Hm Hk z H. unfold bind. specialize (Hm z H).
  destruct (m z) as [z' [e|a]]; cbn in *; [exact Hm|].
  apply Hk. exact Hm.
Qed.

Lemma wp_ret (Q : A -> Indexer -> Prop) (a : A) (z : Indexer) :
  Q a z -> wp (ret a) Q z.
Proof. intros H. exact H. Qed.

Lemma wp_fail (Q : A -> Indexer -> Prop) (e : error) (z : Indexer) :
  wp (fail e) Q z.
Proof. exact I. Qed.

Lemma wp_bind (m : M A) (k : A -> M B) (Q : B -> Indexer -> Prop)
      (z : Indexer) :
  wp m (fun a z' => wp (k a) Q z') z -> wp (bind m k) Q z.
Proof.
  unfold wp, bind. destruct (m z) as [z' [e|a]]; auto.
Qed.

Lemma wp_stable (I : Indexer -> Prop) (m : M A) (z : Indexer) :
  stable I m -> I z -> wp m (fun _ z' => I z') z.
Proof.
  intros Hm H. unfold wp. specialize (Hm z H).
  destruct (m z) as [z' [e|a]]; auto.
Qed.
End Rules.

Lemma stable_get (I : Indexer -> Prop) : stable I get.
Proof. intros z H. exact H. Qed.

Lemma stable_modify (I : Indexer -> Prop) (g : Indexer -> Indexer) :
  (forall z, I z -> I (g z)) -> stable I (modify g).
Proof. intros Hg z H. apply Hg. exact H. Qed.

Lemma stable_when (I : Indexer -> Prop) (c : bool) (m : M unit) :
  stable I m -> stable I (when c m).
Proof. intros Hm. destruct c; [exact Hm | apply stable_ret]. Qed.

Lemma stable_readFull (I : Indexer -> Prop) (n : nat) :
  (forall bs z, I z -> I (consume bs z)) -> stable I (readFull n).
Proof.
  intros Hc z H. rewrite readFull_cases. cbv zeta. cbn [fst].
  apply Hc. exact H.
Qed.

Lemma stable_read_uint8 (I : Indexer -> Prop) :
  (forall bs z, I z -> I (consume bs z)) -> stable I read_uint8.
Proof.
  intros Hc. apply stable_bind; [apply stable_readFull; exact Hc|].
  intros; apply stable_ret.
Qed.

Lemma stable_read_uint16 (I : Indexer -> Prop) :
  (forall bs z, I z -> I (consume bs z)) -> stable I read_uint16.
Proof.
  intros Hc. apply stable_bind; [apply stable_readFull; exact Hc|].
  intros; apply stable_ret.
Qed.

Lemma stable_read_uint32 (I : Indexer -> Prop) :
  (forall bs z, I z -> I (consume bs z)) -> stable I read_uint32.
Proof.
  intros Hc. apply stable_bind; [apply stable_readFull; exact Hc|].
  intros; apply stable_ret.
Qed.

Lemma wp_get (Q : Indexer -> Indexer -> Prop) (z : Indexer) :
  Q z z -> wp get Q z.
Proof. intros H. exact H. Qed.

Lemma wp_modify (g : Indexer -> Indexer) (Q : unit -> Indexer -> Prop)
      (z : Indexer) :
  Q tt (g z) -> wp (modify g) Q z.
Proof. intros H. exact H. Qed.

Lemma wp_when (c : bool) (m : M unit) (Q : unit -> Indexer -> Prop)
      (z : Indexer) :
  (c = true -> wp m Q z) -> (c = false -> Q tt z) -> wp (when c m) Q z.
Proof. destruct c; intros H1 H2; [apply H1 | apply H2]; reflexivity. Qed.

Lemma wp_readFull (n : nat) (Q : list byte -> Indexer -> Prop) (z : Indexer) :
  (forall bs, length bs = n -> Q bs (consume bs z)) -> wp (readFull n) Q z.
Proof.
  intros H. unfold wp. rewrite readFull_cases. cbv zeta.
  destruct (Nat.eqb _ n) eqn:E.
  - apply H. apply Nat.eqb_eq. exact E.
  - destruct (Nat.eqb _ 0); exact I.
Qed.

Lemma wp_read_uint8 (Q : Z -> Indexer -> Prop) (z : Indexer) :
  (forall bs, length bs = 1%nat -> Q (Uint8 bs) (consume bs z)) ->
  wp read_uint8 Q z.
Proof.
  intros H. apply wp_bind, wp_readFull. intros bs Hl. apply wp_ret. auto.
Qed.

Lemma wp_read_uint16 (Q : Z -> Indexer -> Prop) (z : Indexer) :
  (forall bs, length bs = 2%nat -> Q (Uint16 bs) (consume bs z)) ->
  wp read_uint16 Q z.
Proof.
  intros H. apply wp_bind, wp_readFull. intros bs Hl. apply wp_ret. auto.
Qed.

Lemma wp_read_uint32 (Q : Z -> Indexer -> Prop) (z : Indexer) :
  (forall bs, length bs = 4%nat -> Q (Uint32 bs) (consume bs z)) ->
  wp read_uint32 Q z.
Proof.
  intros H. apply wp_bind, wp_readFull. intros bs Hl. apply wp_ret. auto.
Qed.

(** Applies the rules along the structure of a method. *)
Ltac stable_steps :=
  repeat first
    [ apply stable_bind; [|intros]
    | apply stable_when
    | apply stable_ret
    | apply stable_fail
    | apply stable_get
    | match goal with
      | |- stable _ (if ?c then _ else _) => destruct c
      end ].

(** ** What [readHeader] leaves behind *)

Lemma same_stream_refl (z : Indexer) : same_stream z z.
Proof. unfold same_stream. repeat split; lia. Qed.

Lemma same_stream_consume (z0 : Indexer) (bs : list byte) (z : Indexer) :
  same_stream z0 z -> same_stream z0 (consume bs z).
Proof.
  unfold same_stream. cbn. intros (? & ? & ? & ? & ?). repeat split; auto. lia.
Qed.

Lemma readHeader_same_stream (z0 : Indexer) :
  stable (same_stream z0) readHeader.
Proof.
  unfold readHeader. stable_steps;
    try (first [ apply stable_readFull | apply stable_read_uint8
               | apply stable_read_uint16 | apply stable_read_uint32 ];
         apply same_stream_consume);
    try (apply stable_modify; intros z' Hz'; exact Hz').
Qed.

Lemma header_counts_consume (bs : list byte) (z : Indexer) :
  header_counts z -> header_counts (consume bs z).
Proof. intros H. exact H. Qed.

(** Reduces projections of updated records, nothing else. *)
Ltac fields :=
  cbn [z_ModTime z_Name z_flags z_version z_libraryVersion z_method
       z_num_compressed_checksums z_num_decompressed_checksums z_f
       z_indexes z_adler32 z_crc32 z_err
       set_ModTime set_Name set_flags set_version set_libraryVersion
       set_method set_num_compressed_checksums
       set_num_decompressed_checksums set_f set_indexes set_adler32
       set_crc32 set_err consume tee advance contents offset seekable
       fst snd new_Indexer].

Ltac wp_step :=
  lazymatch goal with
  | |- wp read_uint8 _ _ => apply wp_read_uint8; intros ? _
  | |- wp read_uint16 _ _ => apply wp_read_uint16; intros ? _
  | |- wp read_uint32 _ _ => apply wp_read_uint32; intros ? _
  | |- wp (readFull _) _ _ => apply wp_readFull; intros ? _
  | |- wp (bind _ _) _ _ => apply wp_bind
  | |- wp (when _ _) _ _ => apply wp_when; intros ?
  | |- wp (modify _) _ _ => apply wp_modify
  | |- wp get _ _ => apply wp_get
  | |- wp (ret _) _ _ => apply wp_ret
  | |- wp (fail _) _ _ => apply wp_fail
  end.

Ltac stable_counts :=
  stable_steps;
  first [ apply stable_readFull | apply stable_read_uint8
        | apply stable_read_uint16 | apply stable_read_uint32
        | apply stable_modify; intros ? ? ];
  auto using header_counts_consume.

Lemma counts_of_flags (fl : Z) (c1 c2 c3 c4 : bool) (n m : Z) :
  negb (Z.land fl flagAdler32C =? 0) = c1 ->
  negb (Z.land fl flagCRC32C =? 0) = c2 ->
  negb (Z.land fl flagAdler32D =? 0) = c3 ->
  negb (Z.land fl flagCRC32D =? 0) = c4 ->
  n = (if c1 then 1 else 0) + (if c2 then 1 else 0) ->
  m = (if c3 then 1 else 0) + (if c4 then 1 else 0) ->
  n = count_flags fl flagAdler32C flagCRC32C /\
  m = count_flags fl flagAdler32D flagCRC32D.
Proof.
  intros <- <- <- <- -> ->. unfold count_flags.
  destruct (Z.land fl flagAdler32C =? 0), (Z.land fl flagCRC32C =? 0),
    (Z.land fl flagAdler32D =? 0), (Z.land fl flagCRC32D =? 0);
    split; reflexivity.
Qed.

Lemma readHeader_counts (z : Indexer) :
  wp readHeader (fun _ z' => header_counts z') z.
Proof.
  unfold readHeader.
  repeat first
    [ apply wp_stable;
      [ solve [stable_counts]
      | unfold header_counts; fields;
        solve [eapply counts_of_flags; eauto] ]
    | wp_step ].
Qed.

Lemma NewIndexer_inr (f : File) (z : Indexer) :
  NewIndexer f = inr z ->
  contents (z_f z) = contents f /\
  seekable (z_f z) = seekable f /\
  z_indexes z = [] /\
  z_err z = None /\
  offset f <= offset (z_f z) /\
  header_counts z.
Proof.
  unfold NewIndexer. intros H.
  pose proof (readHeader_same_stream (new_Indexer f) (new_Indexer f)
                (same_stream_refl _)) as (H1 & H2 & H3 & H4 & H5).
  pose proof (readHeader_counts (new_Indexer f)) as Hc. unfold wp in Hc.
  destruct (readHeader (new_Indexer f)) as [z' [e|[]]]; [discriminate|].
  inversion H; subst z'. cbn [fst] in *. auto 10.
Qed.

Lemma header_counts_ok (z : Indexer) : header_counts z -> counts_ok z.
Proof.
  unfold header_counts, counts_ok, count_flags. intros [-> ->].
  destruct (Z.land _ flagAdler32C =? 0), (Z.land _ flagCRC32C =? 0),
    (Z.land _ flagAdler32D =? 0), (Z.land _ flagCRC32D =? 0); lia.
Qed.

(** ** Running [readHeader] on a stream laid out as a header *)

Section Run.
Context {B : Type}.
Variables (k : Z -> M B) (z : Indexer) (pre bs rest : list byte).
Hypothesis Hpos : positioned (z_f z) pre (bs ++ rest).

Lemma bind_readFull_pos (n : nat) (kb : list byte -> M B) :
  length bs = n -> bind (readFull n) kb z = kb bs (consume bs z).
Proof.
  intros Hn. unfold bind.
  rewrite (readFull_positioned z pre bs rest n Hpos Hn). reflexivity.
Qed.

Lemma bind_read_uint8_pos :
  length bs = 1%nat -> bind read_uint8 k z = k (Uint8 bs) (consume bs z).
Proof.
  intros Hn. unfold bind, read_uint8, bind.
  rewrite (readFull_positioned z pre bs rest _ Hpos Hn). reflexivity.
Qed.

Lemma bind_read_uint16_pos :
  length bs = 2%nat -> bind read_uint16 k z = k (Uint16 bs) (consume bs z).
Proof.
  intros Hn. unfold bind, read_uint16, bind.
  rewrite (readFull_positioned z pre bs rest _ Hpos Hn). reflexivity.
Qed.

Lemma bind_read_uint32_pos :
  length bs = 4%nat -> bind read_uint32 k z = k (Uint32 bs) (consume bs z).
Proof.
  intros Hn. unfold bind, read_uint32, bind.
  rewrite (readFull_positioned z pre bs rest _ Hpos Hn). reflexivity.
Qed.
End Run.

Lemma bind_modify {B} (g : Indexer -> Indexer) (k : unit -> M B) (z : Indexer) :
  bind (modify g) k z = k tt (g z).
Proof. reflexivity. Qed.

Lemma bind_get {B} (k : Indexer -> M B) (z : Indexer) :
  bind get k z = k z z.
Proof. reflexivity. Qed.

Lemma bind_ret {A B} (a : A) (k : A -> M B) (z : Indexer) :
  bind (ret a) k z = k a z.
Proof. reflexivity. Qed.

Lemma bind_assoc {A B C} (m : M A) (k1 : A -> M B) (k2 : B -> M C)
      (z : Indexer) :
  bind (bind m k1) k2 z = bind m (fun a => bind (k1 a) k2) z.
Proof. unfold bind. destruct (m z) as [z' [e|a]]; reflexivity. Qed.

Lemma bind_when_fail {B} (c : bool) (e : error) (k : unit -> M B)
      (z : Indexer) :
  snd (bind (when c (fail e)) k z) = if c then inl e else snd (k tt z).
Proof. destruct c; reflexivity. Qed.

Lemma bind_when_true {B} (m : M unit) (k : unit -> M B) (z : Indexer) :
  bind (when true m) k z = bind m k z.
Proof. reflexivity. Qed.

Lemma bind_when_false {B} (m : M unit) (k : unit -> M B) (z : Indexer) :
  bind (when false m) k z = k tt z.
Proof. reflexivity. Qed.

(** A conditional update of a field that the result does not depend
    on can be passed over. *)
Lemma bind_when_modify {B} (c : bool) (g : Indexer -> Indexer)
      (k : unit -> M B) (z : Indexer) :
  bind (when c (modify g)) k z = k tt (if c then g z else z).
Proof. destruct c; reflexivity. Qed.

(** Reads the field [bs] that lies at the cursor. *)
Ltac rd_with lem bs Hlen :=
  lazymatch goal with
  | Hpos : positioned _ ?pre (bs ++ ?rest) |- context [bind _ ?k ?z] =>
      rewrite (lem _ k z pre bs rest Hpos Hlen);
      apply positioned_advance in Hpos; cbv beta
  end.

Ltac rd_full bs Hlen :=
  lazymatch goal with
  | Hpos : positioned _ ?pre (bs ++ ?rest)
    |- context [bind (readFull ?n) ?k ?z] =>
      rewrite (@bind_readFull_pos _ z pre bs rest Hpos n k Hlen);
      apply positioned_advance in Hpos; cbv beta
  end.

Lemma readHeader_run (z : Indexer) (pre v l1 l2 : list byte) (m lvl : byte)
      (fl filt mode mt mth : list byte) (nl : byte) (name cks rest : list byte) :
  let body := v ++ l1 ++ l2 ++ [m] ++ [lvl] ++ fl ++ filt ++ mode ++ mt ++ mth
              ++ [nl] ++ name in
  positioned (z_f z) pre (lzoMagic ++ body ++ cks ++ rest) ->
  length v = 2%nat -> length l1 = 2%nat -> length l2 = 2%nat ->
  length fl = 4%nat ->
  length filt = (if (Z.land (Uint32 fl) flagFilter =? 0)%Z then 0 else 4)%nat ->
  length mode = 4%nat -> length mt = 4%nat -> length mth = 4%nat ->
  length name = Z.to_nat (b2z nl) -> length cks = 4%nat ->
  snd (readHeader z)
  = if Uint16 l2 >? Uint16 v then inl (errors_New "lzo: incompatible version")
    else if Uint16 l2 <? 0x0900 then inl (errors_New "lzo: invalid header")
    else if negb (Uint32 cks =?
                  (if negb (Z.land (Uint32 fl) flagCRC32 =? 0)
                   then crc32_ChecksumIEEE body
                   else adler32_Checksum body))
    then inl (errors_New "lzo: invalid header")
    else if b2z m <=? 0 then inl (errors_New "lzo: incompatible method")
    else inr tt.
Proof.
  intros body Hpos Hv Hl1 Hl2 Hfl Hfilt Hmode Hmt Hmth Hname Hcks.
  subst body. rewrite <- !app_assoc in Hpos.
  unfold readHeader.
  rd_full lzoMagic (@eq_refl nat 9%nat).
  rewrite bind_when_fail.
  replace (bytes_Equal lzoMagic lzoMagic) with true by reflexivity.
  cbn [negb].
  rewrite !bind_modify.
  rd_with @bind_read_uint16_pos v Hv.
  rewrite bind_modify.
  rewrite bind_when_fail. change (version <? 2304) with false. cbv iota.
  rd_with @bind_read_uint16_pos l1 Hl1.
  rewrite bind_modify.
  change (version >=? 2368) with true.
  rewrite bind_when_true, !bind_assoc.
  rd_with @bind_read_uint16_pos l2 Hl2.
  rewrite bind_assoc, bind_modify, bind_assoc, bind_get, bind_assoc.
  rewrite bind_when_fail. fields.
  destruct (Uint16 l2 >? Uint16 v); [reflexivity|].
  rewrite bind_when_fail.
  destruct (Uint16 l2 <? 2304); [reflexivity|].
  rd_with @bind_read_uint8_pos [m] (@eq_refl nat 1%nat).
  rewrite bind_modify, bind_when_true, bind_assoc.
  rd_with @bind_read_uint8_pos [lvl] (@eq_refl nat 1%nat).
  rewrite bind_ret.
  rd_with @bind_read_uint32_pos fl Hfl.
  rewrite bind_modify.
  assert (Hfilter :
    exists S0,
      (forall (k : unit -> M unit),
        bind (when (negb (Z.land (Uint32 fl) flagFilter =? 0))
                (read_uint32 ;;; ret tt)) k
          (set_flags (Uint32 fl) (consume fl (consume [lvl]
            (set_method (Uint8 [m]) (consume [m]
              (set_libraryVersion (Uint16 l2) (consume l2
                (set_libraryVersion (Uint16 l1) (consume l1
                  (set_version (Uint16 v) (consume v
                    (set_adler32 1 (set_crc32 0
                      (consume lzoMagic z))))))))))))))
        = k tt S0) /\
      positioned (z_f S0)
        ((((((((pre ++ lzoMagic) ++ v) ++ l1) ++ l2) ++ [m]) ++ [lvl]) ++ fl)
           ++ filt)
        (mode ++ mt ++ mth ++ [nl] ++ name ++ cks ++ rest) /\
      z_flags S0 = Uint32 fl /\ z_method S0 = b2z m /\
      z_crc32 S0
      = crc32_update 0 (v ++ l1 ++ l2 ++ [m] ++ [lvl] ++ fl ++ filt) /\
      z_adler32 S0
      = adler32_update 1 (v ++ l1 ++ l2 ++ [m] ++ [lvl] ++ fl ++ filt)).
  { destruct (Z.land (Uint32 fl) flagFilter =? 0) eqn:Ef; cbn [negb].
    - destruct filt; [|discriminate]. cbn [app] in Hpos.
      eexists. split; [intros k; rewrite bind_when_false; reflexivity|].
      split; [rewrite app_nil_r; exact Hpos|].
      split; [reflexivity|]. split; [reflexivity|]. split.
      + fields. rewrite !crc32_update_app, ?app_nil_r, <- ?app_assoc.
        reflexivity.
      + fields. rewrite !adler32_update_app, ?app_nil_r, <- ?app_assoc.
        reflexivity.
    - eexists. split.
      { intros k. rewrite bind_when_true, bind_assoc.
        rd_with @bind_read_uint32_pos filt Hfilt.
        rewrite bind_ret. reflexivity. }
      apply positioned_advance in Hpos.
      split; [exact Hpos|].
      split; [reflexivity|]. split; [reflexivity|]. split.
      + fields. rewrite !crc32_update_app, <- ?app_assoc. reflexivity.
      + fields. rewrite !adler32_update_app, <- ?app_assoc. reflexivity. }
  destruct Hfilter as (S0 & Hk & HposS & HflS & HmS & HcrcS & HadS).
  rewrite Hk. clear Hk Hpos.
  rewrite bind_modify, !bind_when_modify, bind_modify, !bind_when_modify.
  match goal with |- snd (bind _ _ ?st) = _ => set (S1 := st) end.
  assert (HS1 : z_f S1 = z_f S0 /\ z_flags S1 = z_flags S0 /\
                z_method S1 = z_method S0 /\ z_crc32 S1 = z_crc32 S0 /\
                z_adler32 S1 = z_adler32 S0).
  { subst S1.
    destruct (negb (Z.land (Uint32 fl) flagCRC32D =? 0)),
      (negb (Z.land (Uint32 fl) flagAdler32D =? 0)),
      (negb (Z.land (Uint32 fl) flagCRC32C =? 0)),
      (negb (Z.land (Uint32 fl) flagAdler32C =? 0)); repeat split. }
  clearbody S1. destruct HS1 as (Hf1 & Hfl1 & Hm1 & Hcrc1 & Had1).
  rewrite <- Hf1 in HposS. rewrite HflS in Hfl1. rewrite HmS in Hm1.
  rewrite HcrcS in Hcrc1. rewrite HadS in Had1.
  clear HflS HmS HcrcS HadS Hf1 S0.
  rename HposS into Hpos.
  rd_with @bind_read_uint32_pos mode Hmode.
  rd_with @bind_read_uint32_pos mt Hmt.
  rewrite bind_modify, bind_when_true, bind_assoc.
  rd_with @bind_read_uint32_pos mth Hmth.
  rewrite bind_ret.
  change (version <? 288) with false. rewrite bind_when_false.
  rd_with @bind_read_uint8_pos [nl] (@eq_refl nat 1%nat).
  cbn [Uint8].
  match goal with
  | |- snd (bind (when ?c ?mm) _ ?st) = _ =>
      assert (Hnm : exists S2,
        (forall k : unit -> M unit, bind (when c mm) k st = k tt S2) /\
        positioned (z_f S2)
          (((((((((((((pre ++ lzoMagic) ++ v) ++ l1) ++ l2) ++ [m]) ++ [lvl])
                 ++ fl) ++ filt) ++ mode) ++ mt) ++ mth) ++ [nl]) ++ name)
          (cks ++ rest) /\
        z_flags S2 = Uint32 fl /\ z_method S2 = b2z m /\
        z_crc32 S2
        = crc32_update 0 (v ++ l1 ++ l2 ++ [m] ++ [lvl] ++ fl ++ filt ++ mode
                            ++ mt ++ mth ++ [nl] ++ name) /\
        z_adler32 S2
        = adler32_update 1 (v ++ l1 ++ l2 ++ [m] ++ [lvl] ++ fl ++ filt
                              ++ mode ++ mt ++ mth ++ [nl] ++ name))
  end.
  { destruct (b2z nl >? 0) eqn:En.
    - eexists. split.
      { intros k. rewrite bind_when_true, bind_assoc.
        rd_full name Hname. rewrite bind_modify. reflexivity. }
      apply positioned_advance in Hpos.
      split; [exact Hpos|].
      split; [exact Hfl1|]. split; [exact Hm1|]. split.
      + fields. rewrite Hcrc1, !crc32_update_app, <- ?app_assoc. reflexivity.
      + fields. rewrite Had1, !adler32_update_app, <- ?app_assoc. reflexivity.
    - assert (name = []) as ->.
      { rewrite Z.gtb_ltb in En. apply Z.ltb_ge in En.
        destruct name; [reflexivity|]. cbn [length] in Hname. lia. }
      eexists. split; [intros k; rewrite bind_when_false; reflexivity|].
      split; [rewrite app_nil_r; exact Hpos|].
      split; [exact Hfl1|]. split; [exact Hm1|]. split.
      + fields. rewrite Hcrc1, !crc32_update_app, <- ?app_assoc. reflexivity.
      + fields. rewrite Had1, !adler32_update_app, <- ?app_assoc.
        reflexivity. }
  destruct Hnm as (S2 & Hk & HposS & HflS & HmS & HcrcS & HadS).
  rewrite Hk. clear Hk Hpos Hfl1 Hm1 Hcrc1 Had1 S1. rename HposS into Hpos.
  rewrite bind_get, HflS.
  unfold crc32_ChecksumIEEE, adler32_Checksum. rewrite <- HcrcS, <- HadS.
  destruct (negb (Z.land (Uint32 fl) flagCRC32 =? 0)).
  - rewrite bind_assoc, bind_modify, bind_ret.
    rd_with @bind_read_uint32_pos cks Hcks.
    rewrite bind_when_fail.
    destruct (negb (Uint32 cks =? z_crc32 S2)); [reflexivity|].
    rewrite bind_get, bind_when_fail. fields. rewrite HmS.
    destruct (b2z m <=? 0); reflexivity.
  - rewrite bind_assoc, bind_modify, bind_ret.
    rd_with @bind_read_uint32_pos cks Hcks.
    rewrite bind_when_fail.
    destruct (negb (Uint32 cks =? z_adler32 S2)); [reflexivity|].
    rewrite bind_get, bind_when_fail. fields. rewrite HmS.
    destruct (b2z m <=? 0); reflexivity.
Qed.

(** ** Results of [NewIndexer] *)

Lemma NewIndexer_error (f : File) (e : error) :
  snd (readHeader (new_Indexer f)) = inl e -> NewIndexer f = inl e.
Proof.
  unfold NewIndexer. destruct (readHeader (new_Indexer f)) as [z [e'|[]]];
    cbn; congruence.
Qed.

Lemma NewIndexer_ok (f : File) :
  snd (readHeader (new_Indexer f)) = inr tt ->
  NewIndexer f = inr (fst (readHeader (new_Indexer f))).
Proof.
  unfold NewIndexer. destruct (readHeader (new_Indexer f)) as [z [e'|[]]];
    cbn; congruence.
Qed.

Lemma FormatError_invalid_header : FormatError (errors_New "lzo: invalid header").
Proof. left. reflexivity. Qed.

(** ** The magic *)

(** C9, as stated, fails on a stream shorter than the signature:
    these three bytes differ from it, and the read that precedes the
    comparison returns [io.ErrUnexpectedEOF], which is not a
    FormatError. *)
Lemma readHeader_short_magic_counterexample :
  let data := [x00; x01; x02] in
  firstn 9 data <> lzoMagic /\
  NewIndexer (mkFile data 0 true) = inl io_ErrUnexpectedEOF /\
  ~ FormatError io_ErrUnexpectedEOF.
Proof.
  cbv zeta. split; [discriminate|].
  split; [vm_compute; reflexivity|].
  intros [H | [H | H]]; discriminate.
Qed.

(** C9 (amended). A stream of at least nine bytes whose first nine
    bytes are not the signature is refused by the header parser with
    the error "lzo: invalid header", a FormatError. *)
Theorem readHeader_bad_magic (data : list byte) (sk : bool) :
  (9 <= length data)%nat -> firstn 9 data <> lzoMagic ->
  NewIndexer (mkFile data 0 sk) = inl (errors_New "lzo: invalid header") /\
  FormatError (errors_New "lzo: invalid header").
Proof.
  intros Hlen Hne. split; [|apply FormatError_invalid_header].
  apply NewIndexer_error.
  assert (Hl : length (firstn 9 data) = length lzoMagic).
  { rewrite length_firstn. change (length lzoMagic) with 9%nat. lia. }
  pose proof (firstn_skipn 9 data) as Hdata.
  remember (firstn 9 data) as magic eqn:Hm. clear Hm.
  remember (skipn 9 data) as tl eqn:Ht. clear Ht. subst data.
  assert (Hpos : positioned (z_f (new_Indexer (mkFile (magic ++ tl) 0 sk))) []
                   (magic ++ tl)).
  { split; reflexivity. }
  unfold readHeader. rd_full magic Hl.
  rewrite bind_when_fail.
  destruct (bytes_Equal magic lzoMagic) eqn:E.
  - apply bytes_Equal_eq in E. contradiction.
  - reflexivity.
Qed.

Lemma readHeader_bad_magic_witness :
  NewIndexer (mkFile [x89; x4c; x5a; x4f; x00; x0d; x0a; x1a; x0b; x10] 0 true)
  = inl (errors_New "lzo: invalid header") /\
  FormatError (errors_New "lzo: invalid header").
Proof.
  apply (readHeader_bad_magic
           [x89; x4c; x5a; x4f; x00; x0d; x0a; x1a; x0b; x10] true).
  - cbn. lia.
  - cbn. discriminate.
Defined.

(** ** The version check *)

Lemma version_check_constant : (version <? 0x0900) = false.
Proof. reflexivity. Qed.

(** C4. The check after reading [z.version] compares the package
    constant: on the stream that ends right after a format version
    0x0800 the parser stores 0x0800, passes the check and ends with
    [io.EOF] on the next read, which is not a FormatError. *)
Theorem readHeader_old_version_not_refused :
  let f := mkFile (lzoMagic ++ [x08; x00]) 0 true in
  z_version (fst (readHeader (new_Indexer f))) = 0x0800 /\
  NewIndexer f = inl io_EOF /\
  ~ FormatError io_EOF.
Proof.
  cbv zeta. split; [vm_compute; reflexivity|].
  split; [vm_compute; reflexivity|].
  intros [H | [H | H]]; discriminate.
Qed.

(** ** [CreateIndex] on a refused header and on a stream with blocks *)

Lemma write_indexes_nil (name : string) (fs : FS) :
  write_indexes name [] fs = (fs, None).
Proof. reflexivity. Qed.

Lemma write_indexes_cons (name : string) (num : Z) (l : list Z) (fs : FS) :
  write_indexes name (num :: l) fs = (fs, Some index_out_of_range).
Proof. reflexivity. Qed.

(** C3. On a file whose magic is wrong [NewIndexer] returns
    "lzo: invalid header", [CreateIndex] drops that error and calls
    [findBlock] on the nil indexer: the call panics instead of
    returning the error. *)
Theorem CreateIndex_invalid_header_panics :
  let data := [x00; x00; x00; x00; x00; x00; x00; x00; x00] in
  NewIndexer (mkFile data 0 true) = inl (errors_New "lzo: invalid header") /\
  option_map snd (CreateIndex "a.lzo" (sample_fs data))
  = Some (Panics nil_pointer_dereference).
Proof.
  cbv zeta. split; vm_compute; reflexivity.
Qed.

(** C2. On a valid stream with one block the scan ends with [io.EOF]
    and the offset list [38]; writing that entry calls [PutUint64] on
    an empty slice, so [CreateIndex] panics and the index file holds
    no byte of the entry. *)
Theorem CreateIndex_one_block_panics :
  let data := sample_header 0x1030 1 0
              ++ sample_block 3 3 [x61; x62; x63] ++ sentinel in
  let f := mkFile data 0 true in
  (exists z z', NewIndexer f = inr z /\ scan (scan_fuel f) z = Some z' /\
                z_err z' = Some io_EOF /\ z_indexes z' = [38]) /\
  option_map snd (CreateIndex "a.lzo" (sample_fs data))
  = Some (Panics index_out_of_range) /\
  option_map (fun r => files (fst r) "a.lzo.index")
    (CreateIndex "a.lzo" (sample_fs data))
  = Some (Some (mkNode [] true)).
Proof.
  cbv zeta. split; [|split; vm_compute; reflexivity].
  eexists. eexists. split; [vm_compute; reflexivity|].
  split; [vm_compute; reflexivity|]. split; reflexivity.
Qed.

(** ** The header checksum *)

(** C6, as stated, fails: this header carries the right checksum and
    is still refused with a FormatError, because its method is 0. *)
Lemma readHeader_checksum_counterexample :
  let body := sample_body 0x1030 0 0 in
  let cks := PutUint32 (adler32_Checksum body) in
  let f := mkFile (lzoMagic ++ body ++ cks) 0 true in
  ~ ((exists e, NewIndexer f = inl e /\ FormatError e)
     <-> Uint32 cks <> adler32_Checksum body).
Proof.
  cbv zeta. intros [H _].
  apply H; [|vm_compute; reflexivity].
  exists (errors_New "lzo: incompatible method"). split.
  - vm_compute. reflexivity.
  - right. right. reflexivity.
Qed.

(** C6 (amended). On a stream laid out as a header whose version
    fields pass their checks, the expected checksum is the CRC-32 of
    the bytes between the magic and the checksum field when
    [flagCRC32] is set and their Adler-32 otherwise; the parser
    answers "lzo: invalid header" exactly when the declared checksum
    differs from it, and it fails with a FormatError exactly when the
    checksum differs or the method is 0. *)
Theorem readHeader_checksum
        (v l1 l2 : list byte) (m lvl : byte) (fl filt mode mt mth : list byte)
        (nl : byte) (name cks rest : list byte) (sk : bool) :
  let body := v ++ l1 ++ l2 ++ [m] ++ [lvl] ++ fl ++ filt ++ mode ++ mt ++ mth
              ++ [nl] ++ name in
  let expected := if Z.land (Uint32 fl) flagCRC32 =? 0
                  then adler32_Checksum body
                  else crc32_ChecksumIEEE body in
  let f := mkFile (lzoMagic ++ body ++ cks ++ rest) 0 sk in
  length v = 2%nat -> length l1 = 2%nat -> length l2 = 2%nat ->
  length fl = 4%nat ->
  length filt = (if (Z.land (Uint32 fl) flagFilter =? 0)%Z then 0 else 4)%nat ->
  length mode = 4%nat -> length mt = 4%nat -> length mth = 4%nat ->
  length name = Z.to_nat (b2z nl) -> length cks = 4%nat ->
  0x0900 <= Uint16 l2 <= Uint16 v ->
  (NewIndexer f = inl (errors_New "lzo: invalid header")
   <-> Uint32 cks <> expected) /\
  ((exists e, NewIndexer f = inl e /\ FormatError e)
   <-> (Uint32 cks <> expected \/ b2z m = 0)).
Proof.
  intros body expected f Hv Hl1 Hl2 Hfl Hfilt Hmode Hmt Hmth Hname Hcks Hver.
  assert (Hpos : positioned (z_f (new_Indexer f)) []
                   (lzoMagic ++ body ++ cks ++ rest)) by (split; reflexivity).
  pose proof (readHeader_run (new_Indexer f) [] v l1 l2 m lvl fl filt mode mt
                mth nl name cks rest Hpos Hv Hl1 Hl2 Hfl Hfilt Hmode Hmt Hmth
                Hname Hcks) as Hrun.
  cbv zeta in Hrun.
  replace (Uint16 l2 >? Uint16 v) with false in Hrun
    by (symmetry; rewrite Z.gtb_ltb; apply Z.ltb_ge; lia).
  replace (Uint16 l2 <? 2304) with false in Hrun
    by (symmetry; apply Z.ltb_ge; lia).
  assert (Hrun' : snd (readHeader (new_Indexer f))
                  = if negb (Uint32 cks =? expected)
                    then inl (errors_New "lzo: invalid header")
                    else if b2z m <=? 0
                         then inl (errors_New "lzo: incompatible method")
                         else inr tt).
  { rewrite Hrun. subst expected.
    destruct (Z.land (Uint32 fl) flagCRC32 =? 0); reflexivity. }
  clear Hrun. rename Hrun' into Hrun.
  pose proof (b2z_range m) as Hm.
  destruct (Uint32 cks =? expected) eqn:Ec; cbn [negb] in Hrun.
  - apply Z.eqb_eq in Ec.
    destruct (b2z m <=? 0) eqn:Em.
    + apply Z.leb_le in Em. apply NewIndexer_error in Hrun. split; split.
      * rewrite Hrun. discriminate.
      * intros H. contradiction.
      * intros _. right. lia.
      * intros _. eexists. split; [exact Hrun|]. right. right. reflexivity.
    + apply Z.leb_gt in Em. apply NewIndexer_ok in Hrun. split; split.
      * rewrite Hrun. discriminate.
      * intros H. contradiction.
      * intros (e & He & _). rewrite Hrun in He. discriminate.
      * intros [H | H]; [contradiction | lia].
  - apply Z.eqb_neq in Ec. apply NewIndexer_error in Hrun. split; split.
    + intros _. exact Ec.
    + intros _. exact Hrun.
    + intros _. left. exact Ec.
    + intros _. eexists. split; [exact Hrun|]. left. reflexivity.
Qed.

Lemma readHeader_checksum_witness :
  let body := sample_body 0x1030 1 0 in
  let f := mkFile (lzoMagic ++ body ++ [x00; x00; x00; x00] ++ []) 0 true in
  (NewIndexer f = inl (errors_New "lzo: invalid header")
   <-> Uint32 [x00; x00; x00; x00] <> adler32_Checksum body) /\
  ((exists e, NewIndexer f = inl e /\ FormatError e)
   <-> (Uint32 [x00; x00; x00; x00] <> adler32_Checksum body \/ b2z x01 = 0)).
Proof.
  cbv zeta.
  apply (readHeader_checksum (PutUint16 0x1030) (PutUint16 0x0940)
           (PutUint16 0x0940) x01 x05 (PutUint32 0) [] (PutUint32 0x81a4)
           (PutUint32 0x5f5e1000) (PutUint32 0) x00 []
           [x00; x00; x00; x00] [] true);
    try reflexivity.
  vm_compute. split; discriminate.
Defined.

(** ** Validation of the block sizes *)

(** C7. Once both size fields of a block are read and [dstLen] is not
    zero, [findBlock] fails with "lzo: data corruption" exactly when
    [srcLen] is 0 or exceeds [dstLen]; a block with
    [0 < srcLen <= dstLen] passes, and on a handle that can report its
    position [findBlock] returns nil. *)
Theorem findBlock_corruption (z : Indexer) (dstLen srcLen : Z) :
  u32_at (contents (z_f z)) (offset (z_f z)) = Some dstLen ->
  u32_at (contents (z_f z)) (offset (z_f z) + 4) = Some srcLen ->
  dstLen <> 0 ->
  ((exists e, snd (findBlock z) = Some e /\ CorruptionError e)
   <-> (srcLen = 0 \/ srcLen > dstLen)) /\
  (0 < srcLen <= dstLen -> seekable (z_f z) = true ->
   snd (findBlock z) = None).
Proof.
  intros Hd Hs Hd0.
  pose proof (u32_at_Some _ _ _ Hs) as (_ & _ & Hsv & _).
  assert (Hsr : 0 <= srcLen) by (rewrite Hsv; apply Uint32_range).
  rewrite (findBlock_sizes z dstLen srcLen Hd Hs Hd0).
  destruct (srcLen <=? 0) eqn:E1; cbn [orb].
  - apply Z.leb_le in E1. split.
    + split; [intros _; left; lia|].
      intros _. eexists. split; reflexivity.
    + intros H. lia.
  - apply Z.leb_gt in E1. destruct (srcLen >? dstLen) eqn:E2.
    + rewrite Z.gtb_ltb in E2. apply Z.ltb_lt in E2. split.
      * split; [intros _; right; lia|].
        intros _. eexists. split; reflexivity.
      * intros H. lia.
    + rewrite Z.gtb_ltb in E2. apply Z.ltb_ge in E2. split.
      * split; [|intros [H | H]; lia].
        intros (e & He & Hc). unfold CorruptionError in Hc. subst e.
        destruct (seekable (z_f z)); discriminate.
      * intros _ ->. reflexivity.
Qed.

Lemma findBlock_corruption_witness :
  snd (findBlock (new_Indexer
         (mkFile (sample_block 3 3 [x61; x62; x63]) 0 true))) = None.
Proof.
  apply (proj2 (findBlock_corruption
                  (new_Indexer (mkFile (sample_block 3 3 [x61; x62; x63]) 0 true))
                  3 3 eq_refl eq_refl ltac:(discriminate))).
  - lia.
  - reflexivity.
Defined.

(** ** The offset list grows only by validated blocks *)

Lemma findBlock_nil_appends (z : Indexer) :
  snd (findBlock z) = None ->
  exists o, z_indexes (fst (findBlock z)) = z_indexes z ++ [o].
Proof.
  destruct (read_uint32_shape z) as (b1 & r1 & R1).
  unfold findBlock. rewrite R1.
  destruct r1 as [e|d]; [discriminate|].
  destruct (d =? 0); [discriminate|].
  destruct (read_uint32_shape (set_err None (consume b1 z))) as (b2 & r2 & R2).
  rewrite R2.
  destruct r2 as [e|s]; [discriminate|].
  destruct (_ || _); [discriminate|].
  unfold File_Seek_CUR0. fields.
  destruct (seekable (z_f z)); [|discriminate].
  intros _. fields. eexists. reflexivity.
Qed.

(** C10. A call of [findBlock] that ends with an error (the sentinel's
    [io.EOF], a corruption error, a failed read or a failed position
    query) leaves the offset list as it was, and a call that returns
    nil appends one offset.  In a scan that starts at a cursor inside
    an [int64]-sized file, the appended offset is the cursor, a valid
    block that is not the sentinel lies there, and the list the loop
    ends with is the initial list followed by offsets of such
    blocks. *)
Theorem findBlock_terminal_keeps_indexes (z : Indexer) (fuel : nat)
        (zf : Indexer) :
  (z_err (fst (findBlock z)) = snd (findBlock z) /\
   match snd (findBlock z) with
   | Some _ => z_indexes (fst (findBlock z)) = z_indexes z
   | None => exists o, z_indexes (fst (findBlock z)) = z_indexes z ++ [o]
   end) /\
  (0 <= offset (z_f z) -> counts_ok z ->
   Z.of_nat (length (contents (z_f z))) < 2 ^ 62 ->
   scan fuel z = Some zf ->
   match snd (findBlock z) with
   | Some _ => zf = fst (findBlock z)
   | None =>
       z_indexes (fst (findBlock z)) = z_indexes z ++ [offset (z_f z)] /\
       valid_block (contents (z_f z)) (offset (z_f z))
   end /\
   exists added,
     z_indexes zf = z_indexes z ++ added /\
     Forall (valid_block (contents (z_f z))) added /\
     z_err zf <> None).
Proof.
  pose proof (findBlock_frame z) as (Herr & _ & _ & _ & _ & Hsame).
  split.
  - split; [exact Herr|].
    destruct (snd (findBlock z)) eqn:E.
    + apply Hsame. discriminate.
    + apply findBlock_nil_appends. exact E.
  - intros Ho Hc Hlen Hscan. split.
    + destruct (snd (findBlock z)) eqn:E.
      * destruct fuel as [|fuel]; [discriminate|].
        cbn [scan] in Hscan. rewrite Herr in Hscan. congruence.
      * destruct (findBlock_progress z Ho Hc Hlen E) as (Hv & _ & Hi & _).
        split; assumption.
    + destruct (scan_added fuel z zf Ho Hc Hlen Hscan)
        as (added & Hadd & Hvalid & _ & Hne).
      exists added. auto.
Qed.

Lemma findBlock_terminal_keeps_indexes_witness :
  let data := sample_block 3 3 [x61; x62; x63] ++ sample_block 5 6 [] in
  let z := new_Indexer (mkFile data 0 true) in
  exists zf added,
    scan 3 z = Some zf /\
    z_indexes zf = z_indexes z ++ added /\
    Forall (valid_block data) added /\
    z_err zf <> None.
Proof.
  cbv zeta.
  set (z := new_Indexer
              (mkFile (sample_block 3 3 [x61; x62; x63] ++ sample_block 5 6 [])
                 0 true)).
  destruct (scan 3 z) as [zf|] eqn:E; [|vm_compute in E; discriminate].
  destruct (proj2 (findBlock_terminal_keeps_indexes z 3 zf)) as (_ & added & H).
  - cbn. lia.
  - split; cbn; lia.
  - cbn. lia.
  - exact E.
  - exists zf, added. split; [reflexivity | exact H].
Defined.

(** ** Offsets of a well-formed block sequence *)

Lemma block_wf_length (nd nc : Z) (b : Block) :
  block_wf nd nc b -> (8 <= length (block_bytes b))%nat.
Proof.
  intros (Hd & Hs & _). unfold block_bytes. rewrite !length_app. lia.
Qed.

Lemma blocks_length (nd nc : Z) (blocks : list Block) :
  Forall (block_wf nd nc) blocks ->
  (length blocks <= length (concat (map block_bytes blocks)))%nat.
Proof.
  induction 1 as [|b blocks Hb _ IH]; cbn [map concat length]; [lia|].
  rewrite length_app. pose proof (block_wf_length _ _ _ Hb). lia.
Qed.








(** ** Where the scanner goes next *)



(** ** The offsets of a well-formed stream *)



(** ** The index file *)

Lemma files_put_file (name : string) (nd : Node) (fs : FS) :
  files (put_file name nd fs) name = Some nd.
Proof. cbn. rewrite String.eqb_refl. reflexivity. Qed.

Lemma scan_some_err (fuel : nat) : forall z zf : Indexer,
  scan fuel z = Some zf -> z_err zf <> None.
Proof.
  induction fuel as [|fuel IH]; intros z zf H; [discriminate|].
  cbn [scan] in H. destruct (z_err (fst (findBlock z))) eqn:E.
  - inversion H; subst. rewrite E. discriminate.
  - eapply IH. exact H.
Qed.

(** C1, as stated, fails: the scan of this file ends with a
    corruption error, and the index file, absent before the call, is
    on disk after it. *)
Lemma CreateIndex_corruption_counterexample :
  let data := sample_header 0x1030 1 0 ++ sample_block 3 4 [x61; x62; x63; x64] in
  let fs := sample_fs data in
  files fs "a.lzo.index" = None /\
  exists fs',
    CreateIndex "a.lzo" fs
    = Some (fs', Returns (Some (errors_New "lzo: data corruption"))) /\
    files fs' "a.lzo.index" = Some (mkNode [] true).
Proof.
  cbv zeta. split; [reflexivity|].
  eexists. split; [vm_compute; reflexivity|]. reflexivity.
Qed.

(** C1 (amended). [CreateIndex] creates the index file before it
    parses the header.  When the header is accepted and the scan ends
    on a terminal condition other than [io.EOF], [CreateIndex]
    returns that error, writes nothing, and the index file stays on
    disk, empty. *)
Theorem CreateIndex_error_leaves_empty_index
        (fs : FS) (filename : string) (nd : Node) (z zf : Indexer) :
  let lzofile := mkFile (node_contents nd) 0 (node_seekable nd) in
  let index_file_name := (filename ++ ".index")%string in
  files fs filename = Some nd ->
  creatable fs index_file_name = true ->
  NewIndexer lzofile = inr z ->
  scan (scan_fuel lzofile) z = Some zf ->
  z_err zf <> Some io_EOF ->
  exists fs' e,
    z_err zf = Some e /\
    CreateIndex filename fs = Some (fs', Returns (Some e)) /\
    files fs' index_file_name = Some (mkNode [] true).
Proof.
  intros lzofile index_file_name Hfile Hcreate Hnew Hscan Hne.
  pose proof (scan_some_err _ _ _ Hscan) as Hsome.
  destruct (z_err zf) as [e|] eqn:He; [|contradiction].
  exists (put_file index_file_name (mkNode [] true) fs), e.
  split; [reflexivity|]. split; [|apply files_put_file].
  unfold CreateIndex, os_Open, os_Create. rewrite Hfile.
  fold index_file_name. rewrite Hcreate. fold lzofile.
  rewrite Hnew, Hscan, He.
  destruct e; try reflexivity. contradiction.
Qed.

Lemma CreateIndex_error_leaves_empty_index_witness :
  let data := sample_header 0x1030 1 0 ++ sample_block 3 4 [x61; x62; x63; x64] in
  exists fs' e,
    CreateIndex "a.lzo" (sample_fs data) = Some (fs', Returns (Some e)) /\
    files fs' "a.lzo.index" = Some (mkNode [] true).
Proof.
  cbv zeta.
  set (data := sample_header 0x1030 1 0
               ++ sample_block 3 4 [x61; x62; x63; x64]).
  destruct (scan (scan_fuel (mkFile data 0 true)) (sample_indexer data))
    as [zf|] eqn:E; [|vm_compute in E; discriminate].
  destruct (CreateIndex_error_leaves_empty_index (sample_fs data) "a.lzo"
              (mkNode data true) (sample_indexer data) zf)
    as (fs' & e & _ & H1 & H2).
  - reflexivity.
  - reflexivity.
  - vm_compute. reflexivity.
  - exact E.
  - vm_compute in E. inversion E. cbn. discriminate.
  - exists fs', e. split; assumption.
Defined.

(** ** [CreateIndex] always ends

    For a source file of [int64] size the scan loop ends within the
    fuel [CreateIndex] gives it: the call returns or panics. *)
Lemma CreateIndex_total (fs : FS) (filename : string) :
  (forall nd, files fs filename = Some nd ->
              Z.of_nat (length (node_contents nd)) < 2 ^ 62) ->
  exists r, CreateIndex filename fs = Some r.
Proof.
  intros Hsize. unfold CreateIndex, os_Open, os_Create.
  destruct (files fs filename) as [nd|] eqn:Hfile; [|eauto].
  specialize (Hsize nd eq_refl).
  destruct (creatable fs (filename ++ ".index")); [|eauto].
  set (lzofile := mkFile (node_contents nd) 0 (node_seekable nd)).
  destruct (NewIndexer lzofile) as [e|z] eqn:Hnew; [eauto|].
  destruct (NewIndexer_inr lzofile z Hnew) as (Hc & _ & _ & _ & Ho & Hcnt).
  destruct (scan_terminates (scan_fuel lzofile) z) as (zf & Hscan).
  - cbn in Ho. lia.
  - apply header_counts_ok. exact Hcnt.
  - rewrite Hc. exact Hsize.
  - unfold scan_fuel. rewrite Hc. cbn in Ho. lia.
  - unfold scan_fuel. lia.
  - rewrite Hscan. destruct (z_err zf) as [[| | |]|]; eauto.
    destruct (write_indexes _ _ _) as [fs' [p|]]; eauto.
Qed.

(** * Further properties of the code *)

(** ** Errors of the header parser *)

(** A file too short to hold the magic: [io.EOF] when it is empty,
    [io.ErrUnexpectedEOF] when it holds one to eight bytes. *)
Theorem NewIndexer_short_file (data : list byte) (sk : bool) :
  (length data < 9)%nat ->
  NewIndexer (mkFile data 0 sk)
  = inl (match data with [] => io_EOF | _ :: _ => io_ErrUnexpectedEOF end).
Proof.
  intros Hlen. unfold NewIndexer, readHeader, bind.
  rewrite readFull_cases. cbv zeta.
  cbn [new_Indexer z_f contents offset Z.to_nat skipn].
  rewrite firstn_all2 by (change (length lzoMagic) with 9%nat; lia).
  change (length lzoMagic) with 9%nat.
  replace (Nat.eqb (length data) 9) with false
    by (symmetry; apply Nat.eqb_neq; lia).
  destruct data; reflexivity.
Qed.

Lemma NewIndexer_short_file_witness :
  NewIndexer (mkFile [x89; x4c; x5a] 0 true) = inl io_ErrUnexpectedEOF.
Proof.
  apply (NewIndexer_short_file [x89; x4c; x5a] true). cbn. lia.
Defined.

Section Fails.
Context {A B : Type}.
Variable E : error -> Prop.

Lemma fails_ret (a : A) : fails_within E (ret a).
Proof. intros z. exact I. Qed.

Lemma fails_fail (e : error) : E e -> fails_within E (@fail A e).
Proof. intros He z. exact He. Qed.

Lemma fails_bind (m : M A) (k : A -> M B) :
  fails_within E m -> (forall a, fails_within E (k a)) ->
  fails_within E (bind m k).
Proof.
  intros Hm Hk z. unfold bind. specialize (Hm z).
  destruct (m z) as [z' [e|a]]; cbn in *; [exact Hm|]. apply Hk.
Qed.
End Fails.

Lemma fails_get (E : error -> Prop) : fails_within E get.
Proof. intros z. exact I. Qed.

Lemma fails_modify (E : error -> Prop) (g : Indexer -> Indexer) :
  fails_within E (modify g).
Proof. intros z. exact I. Qed.

Lemma fails_when (E : error -> Prop) (c : bool) (m : M unit) :
  fails_within E m -> fails_within E (when c m).
Proof. intros Hm. destruct c; [exact Hm | apply fails_ret]. Qed.

Lemma fails_readFull (E : error -> Prop) (n : nat) :
  E io_EOF -> E io_ErrUnexpectedEOF -> fails_within E (readFull n).
Proof.
  intros H1 H2 z. rewrite readFull_cases. cbv zeta. cbn [snd].
  destruct (Nat.eqb _ n); [exact I|]. destruct (Nat.eqb _ 0); assumption.
Qed.

Lemma fails_read_uint8 (E : error -> Prop) :
  E io_EOF -> E io_ErrUnexpectedEOF -> fails_within E read_uint8.
Proof.
  intros H1 H2. apply fails_bind; [apply fails_readFull; assumption|].
  intros; apply fails_ret.
Qed.

Lemma fails_read_uint16 (E : error -> Prop) :
  E io_EOF -> E io_ErrUnexpectedEOF -> fails_within E read_uint16.
Proof.
  intros H1 H2. apply fails_bind; [apply fails_readFull; assumption|].
  intros; apply fails_ret.
Qed.

Lemma fails_read_uint32 (E : error -> Prop) :
  E io_EOF -> E io_ErrUnexpectedEOF -> fails_within E read_uint32.
Proof.
  intros H1 H2. apply fails_bind; [apply fails_readFull; assumption|].
  intros; apply fails_ret.
Qed.

Lemma header_error_EOF : header_error io_EOF.
Proof. left. reflexivity. Qed.

Lemma header_error_UnexpectedEOF : header_error io_ErrUnexpectedEOF.
Proof. right. left. reflexivity. Qed.

Lemma readHeader_fails_within : fails_within header_error readHeader.
Proof.
  unfold readHeader.
  repeat first
    [ apply fails_bind; [|intros]
    | apply fails_when
    | apply fails_ret
    | apply fails_get
    | apply fails_modify
    | apply fails_readFull;
      [apply header_error_EOF | apply header_error_UnexpectedEOF]
    | apply fails_read_uint8;
      [apply header_error_EOF | apply header_error_UnexpectedEOF]
    | apply fails_read_uint16;
      [apply header_error_EOF | apply header_error_UnexpectedEOF]
    | apply fails_read_uint32;
      [apply header_error_EOF | apply header_error_UnexpectedEOF]
    | apply fails_fail; right; right; unfold FormatError; tauto
    | match goal with
      | |- fails_within _ (if ?c then _ else _) => destruct c
      end ].
Qed.

(** Whatever the file holds, a refusal by [NewIndexer] is one of five
    errors: the two end-of-file errors of the reads and the three
    header errors.  The parser never seeks, so no seek error can come
    out of it, also on a handle that cannot seek. *)
Theorem NewIndexer_errors (f : File) (e : error) :
  NewIndexer f = inl e ->
  e = io_EOF \/ e = io_ErrUnexpectedEOF \/
  e = errors_New "lzo: invalid header" \/
  e = errors_New "lzo: incompatible version" \/
  e = errors_New "lzo: incompatible method".
Proof.
  unfold NewIndexer. intros H.
  pose proof (readHeader_fails_within (new_Indexer f)) as Hf.
  destruct (readHeader (new_Indexer f)) as [z [e'|[]]]; [|discriminate].
  inversion H; subst e'. cbn in Hf. unfold header_error, FormatError in Hf.
  tauto.
Qed.

Lemma NewIndexer_errors_witness :
  io_EOF = io_EOF \/ io_EOF = io_ErrUnexpectedEOF \/
  io_EOF = errors_New "lzo: invalid header" \/
  io_EOF = errors_New "lzo: incompatible version" \/
  io_EOF = errors_New "lzo: incompatible method".
Proof.
  apply (NewIndexer_errors (mkFile (lzoMagic ++ [x08; x00]) 0 false) io_EOF).
  vm_compute. reflexivity.
Defined.
Ltac fields_in H :=
  cbn [z_ModTime z_Name z_flags z_version z_libraryVersion z_method
       z_num_compressed_checksums z_num_decompressed_checksums z_f
       z_indexes z_adler32 z_crc32 z_err
       set_ModTime set_Name set_flags set_version set_libraryVersion
       set_method set_num_compressed_checksums
       set_num_decompressed_checksums set_f set_indexes set_adler32
       set_crc32 set_err consume tee advance contents offset seekable
       fst snd new_Indexer] in H.

(** ** What an accepted header guarantees *)

Lemma wp_bind_any {A B} (m : M A) (k : A -> M B) (Q : B -> Indexer -> Prop)
      (z : Indexer) :
  (forall a z', wp (k a) Q z') -> wp (bind m k) Q z.
Proof.
  intros H. unfold wp, bind. destruct (m z) as [z' [e|a]]; [exact I|].
  apply H.
Qed.

Lemma wp_post {A} (m : M A) (Q : A -> Indexer -> Prop) (z z' : Indexer)
      (a : A) :
  wp m Q z -> m z = (z', inr a) -> Q a z'.
Proof. unfold wp. intros H E. rewrite E in H. exact H. Qed.


Ltac stable_plain :=
  stable_steps;
  first [ apply stable_readFull | apply stable_read_uint8
        | apply stable_read_uint16 | apply stable_read_uint32
        | apply stable_modify; intros ? ? ];
  intros; assumption.

Lemma readHeader_versions (z : Indexer) :
  wp readHeader (fun _ z' => versions_ok z') z.
Proof.
  unfold readHeader.
  repeat first
    [ apply wp_stable;
      [ solve [stable_plain]
      | unfold versions_ok; fields;
        match goal with
        | H1 : (_ >? _) = false, H2 : (_ <? 2304) = false |- _ =>
            fields_in H1; fields_in H2;
            rewrite Z.gtb_ltb in H1; apply Z.ltb_ge in H1;
            apply Z.ltb_ge in H2; lia
        end ]
    | wp_step;
      try match goal with
          | H : (version >=? _) = false |- _ => vm_compute in H; discriminate H
          end ].
Qed.

Lemma readHeader_method (z : Indexer) :
  wp readHeader (fun _ z' => 0 < z_method z') z.
Proof.
  unfold readHeader.
  repeat first
    [ solve [ apply wp_bind, wp_get, wp_bind, wp_when;
              [ intros _; apply wp_fail
              | intros Hc; apply wp_ret; apply Z.leb_gt in Hc; exact Hc ] ]
    | apply wp_bind_any; intros ].
Qed.

(** ** Decoding an accepted header *)

Lemma consume_nil (z : Indexer) : consume [] z = z.
Proof.
  destruct z as [? ? ? ? ? ? ? ? [c o s] ? ? ? ?].
  unfold consume, tee, advance. cbn.
  rewrite Z.add_0_r, crc32_update_nil. reflexivity.
Qed.

Lemma bind_when_fail_false {B} (c : bool) (e : error) (k : unit -> M B)
      (z : Indexer) :
  c = false -> bind (when c (fail e)) k z = k tt z.
Proof. intros ->. reflexivity. Qed.

Lemma bind_when_compressed {B} (c : bool) (k : unit -> M B) (z : Indexer) :
  bind (when c (modify (fun z0 => set_num_compressed_checksums
                                    (z_num_compressed_checksums z0 + 1) z0)))
       k z
  = k tt (set_num_compressed_checksums
            (z_num_compressed_checksums z + (if c then 1 else 0)) z).
Proof.
  destruct c; [reflexivity|]. cbn. f_equal. destruct z. cbn.
  rewrite Z.add_0_r. reflexivity.
Qed.

Lemma bind_when_decompressed {B} (c : bool) (k : unit -> M B) (z : Indexer) :
  bind (when c (modify (fun z0 => set_num_decompressed_checksums
                                    (z_num_decompressed_checksums z0 + 1) z0)))
       k z
  = k tt (set_num_decompressed_checksums
            (z_num_decompressed_checksums z + (if c then 1 else 0)) z).
Proof.
  destruct c; [reflexivity|]. cbn. f_equal. destruct z. cbn.
  rewrite Z.add_0_r. reflexivity.
Qed.

Lemma bind_when_filter_pos {B} (c : bool) (k : unit -> M B) (z : Indexer)
      (pre bs rest : list byte) :
  positioned (z_f z) pre (bs ++ rest) ->
  length bs = (if c then 4 else 0)%nat ->
  bind (when c (read_uint32 ;;; ret tt)) k z = k tt (consume bs z).
Proof.
  intros Hpos Hlen. destruct c.
  - rewrite bind_when_true, bind_assoc.
    rewrite (bind_read_uint32_pos _ z pre bs rest Hpos Hlen).
    reflexivity.
  - destruct bs; [|discriminate]. rewrite consume_nil. reflexivity.
Qed.

Lemma bind_when_name_pos {B} (l : Z) (k : unit -> M B) (z : Indexer)
      (pre name rest : list byte) :
  positioned (z_f z) pre (name ++ rest) ->
  length name = Z.to_nat l -> z_Name z = [] ->
  bind (when (l >? 0)
          (name0 <- readFull (Z.to_nat l) ;; modify (set_Name name0))) k z
  = k tt (set_Name name (consume name z)).
Proof.
  intros Hpos Hlen Hname. destruct (l >? 0) eqn:El.
  - rewrite bind_when_true, bind_assoc.
    rewrite (bind_readFull_pos z pre name rest Hpos _ _ Hlen).
    reflexivity.
  - rewrite Z.gtb_ltb in El. apply Z.ltb_ge in El.
    assert (name = []) as ->.
    { destruct name; [reflexivity|]. cbn [length] in Hlen. lia. }
    rewrite consume_nil. rewrite bind_when_false. f_equal.
    destruct z. cbn in *. subst. reflexivity.
Qed.

Lemma readHeader_accept (f : File)
      (v l1 l2 : list byte) (m lvl : byte) (fl filt mode mt mth : list byte)
      (nl : byte) (name cks rest : list byte) :
  let body := v ++ l1 ++ l2 ++ [m] ++ [lvl] ++ fl ++ filt ++ mode ++ mt ++ mth
              ++ [nl] ++ name in
  positioned f [] (lzoMagic ++ body ++ cks ++ rest) ->
  length v = 2%nat -> length l1 = 2%nat -> length l2 = 2%nat ->
  length fl = 4%nat ->
  length filt = (if (Z.land (Uint32 fl) flagFilter =? 0)%Z then 0 else 4)%nat ->
  length mode = 4%nat -> length mt = 4%nat -> length mth = 4%nat ->
  length name = Z.to_nat (b2z nl) -> length cks = 4%nat ->
  0x0900 <= Uint16 l2 <= Uint16 v ->
  Uint32 cks = (if Z.land (Uint32 fl) flagCRC32 =? 0
                then adler32_Checksum body else crc32_ChecksumIEEE body) ->
  b2z m <> 0 ->
  exists z,
    readHeader (new_Indexer f) = (z, inr tt) /\
    z_version z = Uint16 v /\ z_libraryVersion z = Uint16 l2 /\
    z_method z = b2z m /\ z_flags z = Uint32 fl /\
    z_ModTime z = Uint32 mt /\ z_Name z = name /\
    positioned (z_f z) (lzoMagic ++ body ++ cks) rest.
Proof.
  intros body Hpos Hv Hl1 Hl2 Hfl Hfilt Hmode Hmt Hmth Hname Hcks Hver Hsum Hm.
  subst body. rewrite <- !app_assoc in Hpos.
  change f with (z_f (new_Indexer f)) in Hpos.
  unfold readHeader.
  rd_full lzoMagic (@eq_refl nat 9%nat).
  rewrite bind_when_fail_false by reflexivity.
  rewrite !bind_modify.
  rd_with @bind_read_uint16_pos v Hv.
  rewrite bind_modify, bind_when_fail_false by reflexivity.
  rd_with @bind_read_uint16_pos l1 Hl1.
  rewrite bind_modify.
  change (version >=? 2368) with true.
  rewrite bind_when_true, !bind_assoc.
  rd_with @bind_read_uint16_pos l2 Hl2.
  rewrite bind_assoc, bind_modify, bind_assoc, bind_get, bind_assoc.
  rewrite bind_when_fail_false
    by (fields; rewrite Z.gtb_ltb; apply Z.ltb_ge; lia).
  rewrite bind_when_fail_false by (fields; apply Z.ltb_ge; lia).
  rd_with @bind_read_uint8_pos [m] (@eq_refl nat 1%nat).
  rewrite bind_modify, bind_when_true, bind_assoc.
  rd_with @bind_read_uint8_pos [lvl] (@eq_refl nat 1%nat).
  rewrite bind_ret.
  rd_with @bind_read_uint32_pos fl Hfl.
  rewrite bind_modify.
  assert (Hfilt' : length filt
                   = (if negb (Z.land (Uint32 fl) flagFilter =? 0)%Z
                      then 4 else 0)%nat).
  { rewrite Hfilt. destruct (Z.land (Uint32 fl) flagFilter =? 0); reflexivity. }
  lazymatch goal with
  | Hp : positioned _ ?pre (filt ++ ?rst)
    |- context [bind (when ?c _) ?k ?z] =>
      rewrite (bind_when_filter_pos c k z pre filt rst Hp Hfilt');
      apply positioned_advance in Hp
  end.
  rewrite bind_modify, !bind_when_compressed, bind_modify,
    !bind_when_decompressed.
  rd_with @bind_read_uint32_pos mode Hmode.
  rd_with @bind_read_uint32_pos mt Hmt.
  rewrite bind_modify, bind_when_true, bind_assoc.
  rd_with @bind_read_uint32_pos mth Hmth.
  rewrite bind_ret.
  change (version <? 288) with false. rewrite bind_when_false.
  rd_with @bind_read_uint8_pos [nl] (@eq_refl nat 1%nat).
  cbn [Uint8].
  lazymatch goal with
  | Hp : positioned _ ?pre (name ++ ?rst)
    |- context [bind (when (?l >? 0) _) ?k ?z] =>
      rewrite (bind_when_name_pos l k z pre name rst Hp Hname eq_refl);
      apply positioned_advance in Hp
  end.
  rewrite bind_get. fields.
  rewrite !crc32_update_app, !adler32_update_app.
  unfold adler32_Checksum, crc32_ChecksumIEEE in Hsum.
  assert (Hpre : forall (X : list byte),
             (((((((((((((([] ++ lzoMagic) ++ v) ++ l1) ++ l2) ++ [m])
                       ++ [lvl]) ++ fl) ++ filt) ++ mode) ++ mt) ++ mth)
                 ++ [nl]) ++ name) ++ X)
             = lzoMagic ++ (v ++ l1 ++ l2 ++ [m] ++ [lvl] ++ fl ++ filt
                              ++ mode ++ mt ++ mth ++ [nl] ++ name) ++ X).
  { intros X. rewrite <- !app_assoc. reflexivity. }
  destruct (Z.land (Uint32 fl) flagCRC32 =? 0) eqn:Ec; cbn [negb].
  - rewrite bind_assoc, bind_modify, bind_ret.
    rd_with @bind_read_uint32_pos cks Hcks.
    rewrite bind_when_fail_false
      by (rewrite Hsum, Z.eqb_refl; reflexivity).
    rewrite bind_get.
    rewrite bind_when_fail_false
      by (fields; pose proof (b2z_range m); apply Z.leb_gt; cbn [Uint8]; lia).
    eexists. split; [reflexivity|]. fields.
    repeat (split; [reflexivity|]).
    rewrite <- Hpre. exact Hpos.
  - rewrite bind_assoc, bind_modify, bind_ret.
    rd_with @bind_read_uint32_pos cks Hcks.
    rewrite bind_when_fail_false
      by (rewrite Hsum, Z.eqb_refl; reflexivity).
    rewrite bind_get.
    rewrite bind_when_fail_false
      by (fields; pose proof (b2z_range m); apply Z.leb_gt; cbn [Uint8]; lia).
    eexists. split; [reflexivity|]. fields.
    repeat (split; [reflexivity|]).
    rewrite <- Hpre. exact Hpos.
Qed.

(** The header as the format lays it out: the fields are decoded into
    the indexer, big-endian, and the cursor is left right behind the
    checksum field.  The first library-version field is overwritten
    by the second one. *)
Theorem NewIndexer_decodes_header
        (v l1 l2 : list byte) (m lvl : byte) (fl filt mode mt mth : list byte)
        (nl : byte) (name cks rest : list byte) (sk : bool) :
  let body := v ++ l1 ++ l2 ++ [m] ++ [lvl] ++ fl ++ filt ++ mode ++ mt ++ mth
              ++ [nl] ++ name in
  let f := mkFile (lzoMagic ++ body ++ cks ++ rest) 0 sk in
  length v = 2%nat -> length l1 = 2%nat -> length l2 = 2%nat ->
  length fl = 4%nat ->
  length filt = (if (Z.land (Uint32 fl) flagFilter =? 0)%Z then 0 else 4)%nat ->
  length mode = 4%nat -> length mt = 4%nat -> length mth = 4%nat ->
  length name = Z.to_nat (b2z nl) -> length cks = 4%nat ->
  0x0900 <= Uint16 l2 <= Uint16 v ->
  Uint32 cks = (if Z.land (Uint32 fl) flagCRC32 =? 0
                then adler32_Checksum body else crc32_ChecksumIEEE body) ->
  b2z m <> 0 ->
  exists z,
    NewIndexer f = inr z /\
    z_version z = Uint16 v /\ z_libraryVersion z = Uint16 l2 /\
    z_method z = b2z m /\ z_flags z = Uint32 fl /\
    z_ModTime z = Uint32 mt /\ z_Name z = name /\
    z_num_compressed_checksums z
    = count_flags (Uint32 fl) flagAdler32C flagCRC32C /\
    z_num_decompressed_checksums z
    = count_flags (Uint32 fl) flagAdler32D flagCRC32D /\
    offset (z_f z) = 9 + Z.of_nat (length body) + 4 /\
    skipn (Z.to_nat (offset (z_f z))) (contents (z_f z)) = rest.
Proof.
  intros body f Hv Hl1 Hl2 Hfl Hfilt Hmode Hmt Hmth Hname Hcks Hver Hsum Hm.
  assert (Hpos : positioned f [] (lzoMagic ++ body ++ cks ++ rest))
    by (split; reflexivity).
  destruct (readHeader_accept f v l1 l2 m lvl fl filt mode mt mth nl name cks
              rest Hpos Hv Hl1 Hl2 Hfl Hfilt Hmode Hmt Hmth Hname Hcks Hver
              Hsum Hm)
    as (z & Hrun & H1 & H2 & H3 & H4 & H5 & H6 & Hdata & Hoff).
  assert (Hnew : NewIndexer f = inr z) by (unfold NewIndexer; rewrite Hrun; reflexivity).
  destruct (NewIndexer_inr f z Hnew) as (_ & _ & _ & _ & _ & [Hnc Hnd]).
  rewrite H4 in Hnc, Hnd.
  exists z. repeat (split; [assumption|]).
  fold body in Hoff. split.
  - rewrite Hoff, !length_app. change (length lzoMagic) with 9%nat.
    rewrite Hcks. lia.
  - rewrite Hoff, Nat2Z.id, Hdata. fold body. apply skipn_exact.
Qed.

Lemma NewIndexer_decodes_header_witness :
  let body := PutUint16 0x1030 ++ PutUint16 0x0a00 ++ PutUint16 0x0940
              ++ [x01] ++ [x05] ++ PutUint32 0x1801 ++ PutUint32 7
              ++ PutUint32 0x81a4 ++ PutUint32 0x5f5e1000 ++ PutUint32 0
              ++ [x03] ++ [x61; x62; x63] in
  let cks := PutUint32 (crc32_ChecksumIEEE body) in
  exists z,
    NewIndexer (mkFile (lzoMagic ++ body ++ cks ++ sentinel) 0 true) = inr z /\
    z_version z = 0x1030 /\ z_libraryVersion z = 0x0940 /\
    z_Name z = [x61; x62; x63] /\
    z_num_decompressed_checksums z = 1 /\
    offset (z_f z) = 45.
Proof.
  cbv zeta.
  destruct (NewIndexer_decodes_header (PutUint16 0x1030) (PutUint16 0x0a00)
              (PutUint16 0x0940) x01 x05 (PutUint32 0x1801) (PutUint32 7)
              (PutUint32 0x81a4) (PutUint32 0x5f5e1000) (PutUint32 0) x03
              [x61; x62; x63]
              (PutUint32 (crc32_ChecksumIEEE
                 (PutUint16 0x1030 ++ PutUint16 0x0a00 ++ PutUint16 0x0940
                  ++ [x01] ++ [x05] ++ PutUint32 0x1801 ++ PutUint32 7
                  ++ PutUint32 0x81a4 ++ PutUint32 0x5f5e1000 ++ PutUint32 0
                  ++ [x03] ++ [x61; x62; x63])))
              sentinel true)
    as (z & Hnew & H1 & H2 & _ & _ & _ & H6 & _ & H8 & H9 & _);
    try (vm_compute; reflexivity).
  - vm_compute. split; discriminate.
  - vm_compute. discriminate.
  - exists z. repeat (split; [assumption|]). exact H9.
Defined.

(** The library version that counts is the second field: a value
    above the format version gives "lzo: incompatible version", a
    value below 0x0900 gives "lzo: invalid header", whatever follows
    the field.  A format version below 0x0900 therefore always ends
    in one of the two. *)
Theorem NewIndexer_library_version
        (v l1 l2 rest : list byte) (sk : bool) :
  length v = 2%nat -> length l1 = 2%nat -> length l2 = 2%nat ->
  Uint16 l2 > Uint16 v \/ Uint16 l2 < 0x0900 \/ Uint16 v < 0x0900 ->
  NewIndexer (mkFile (lzoMagic ++ v ++ l1 ++ l2 ++ rest) 0 sk)
  = inl (if Uint16 l2 >? Uint16 v
         then errors_New "lzo: incompatible version"
         else errors_New "lzo: invalid header").
Proof.
  intros Hv Hl1 Hl2 Hbad. apply NewIndexer_error.
  set (f := mkFile (lzoMagic ++ v ++ l1 ++ l2 ++ rest) 0 sk).
  assert (Hpos : positioned (z_f (new_Indexer f)) []
                   (lzoMagic ++ v ++ l1 ++ l2 ++ rest)) by (split; reflexivity).
  unfold readHeader.
  rd_full lzoMagic (@eq_refl nat 9%nat).
  rewrite bind_when_fail_false by reflexivity.
  rewrite !bind_modify.
  rd_with @bind_read_uint16_pos v Hv.
  rewrite bind_modify, bind_when_fail_false by reflexivity.
  rd_with @bind_read_uint16_pos l1 Hl1.
  rewrite bind_modify.
  change (version >=? 2368) with true.
  rewrite bind_when_true, !bind_assoc.
  rd_with @bind_read_uint16_pos l2 Hl2.
  rewrite bind_assoc, bind_modify, bind_assoc, bind_get, bind_assoc.
  rewrite bind_when_fail. fields.
  destruct (Uint16 l2 >? Uint16 v) eqn:E1; [reflexivity|].
  rewrite bind_when_fail. fields.
  rewrite Z.gtb_ltb in E1. apply Z.ltb_ge in E1.
  replace (Uint16 l2 <? 2304) with true by (symmetry; apply Z.ltb_lt; lia).
  reflexivity.
Qed.

Lemma NewIndexer_library_version_witness :
  NewIndexer (mkFile (lzoMagic ++ PutUint16 0x0800 ++ PutUint16 0x0940
                        ++ PutUint16 0x0940 ++ [x01; x05]) 0 true)
  = inl (errors_New "lzo: incompatible version").
Proof.
  apply (NewIndexer_library_version (PutUint16 0x0800) (PutUint16 0x0940)
           (PutUint16 0x0940) [x01; x05] true); try reflexivity.
  left. vm_compute. reflexivity.
Defined.

(** Every header [NewIndexer] accepts, whatever the layout of the
    file, has a library version between 0x0900 and its format
    version and a method other than 0.  So no format version below
    0x0900 is ever accepted, although the direct check compares a
    constant. *)
Theorem NewIndexer_accepted_versions (f : File) (z : Indexer) :
  NewIndexer f = inr z ->
  0x0900 <= z_libraryVersion z <= z_version z /\ 0 < z_method z.
Proof.
  unfold NewIndexer. intros H.
  destruct (readHeader (new_Indexer f)) as [z' [e|[]]] eqn:E; [discriminate|].
  inversion H; subst z'. split.
  - apply (wp_post _ _ _ _ _ (readHeader_versions (new_Indexer f)) E).
  - apply (wp_post _ _ _ _ _ (readHeader_method (new_Indexer f)) E).
Qed.

Lemma NewIndexer_accepted_versions_witness :
  let z := sample_indexer (sample_header 0x1030 1 0) in
  0x0900 <= z_libraryVersion z <= z_version z /\ 0 < z_method z.
Proof.
  cbv zeta.
  apply (NewIndexer_accepted_versions
           (mkFile (sample_header 0x1030 1 0) 0 true)).
  vm_compute. reflexivity.
Defined.

(** The indexer [NewIndexer] returns is ready for the scan: the
    checksum counts are the numbers of Adler-32 and CRC-32 flags set
    for compressed and for decompressed data, each between 0 and 2,
    the offset list is empty, no error is pending, and the file
    contents are those of the handle it was given. *)
Theorem NewIndexer_accepted_state (f : File) (z : Indexer) :
  NewIndexer f = inr z ->
  z_num_compressed_checksums z
  = count_flags (z_flags z) flagAdler32C flagCRC32C /\
  z_num_decompressed_checksums z
  = count_flags (z_flags z) flagAdler32D flagCRC32D /\
  0 <= z_num_compressed_checksums z <= 2 /\
  0 <= z_num_decompressed_checksums z <= 2 /\
  z_indexes z = [] /\ z_err z = None /\
  contents (z_f z) = contents f /\ seekable (z_f z) = seekable f /\
  offset f <= offset (z_f z).
Proof.
  intros H.
  destruct (NewIndexer_inr f z H) as (Hc & Hs & Hi & He & Ho & Hcnt).
  pose proof (header_counts_ok z Hcnt) as [Hd Hcm].
  destruct Hcnt as [Hnc Hnd]. auto 10.
Qed.

Lemma NewIndexer_accepted_state_witness :
  let z := sample_indexer (sample_header 0x1030 1 0x103) in
  z_num_compressed_checksums z = 1 /\ z_num_decompressed_checksums z = 2 /\
  z_indexes z = [].
Proof.
  cbv zeta.
  destruct (NewIndexer_accepted_state
              (mkFile (sample_header 0x1030 1 0x103) 0 true)
              (sample_indexer (sample_header 0x1030 1 0x103)))
    as (H1 & H2 & _ & _ & H5 & _).
  - vm_compute. reflexivity.
  - split; [|split]; [rewrite H1 | rewrite H2 | exact H5];
      vm_compute; reflexivity.
Defined.

(** ** Terminal conditions of the scan *)

Lemma read_uint32_error (z z' : Indexer) (e : error) :
  read_uint32 z = (z', inl e) -> e = io_EOF \/ e = io_ErrUnexpectedEOF.
Proof.
  rewrite read_uint32_cases. cbv zeta.
  destruct (Nat.eqb _ 4); [discriminate|].
  destruct (Nat.eqb _ 0); intros H; inversion H; auto.
Qed.

Lemma findBlock_scan_error (z : Indexer) :
  match snd (findBlock z) with
  | Some e => scan_error e /\
              (e = PathError "seek" -> seekable (z_f z) = false)
  | None => seekable (z_f z) = true
  end.
Proof.
  destruct (read_uint32_shape z) as (b1 & r1 & R1).
  unfold findBlock. rewrite R1.
  destruct r1 as [e|d].
  { cbn. destruct (read_uint32_error _ _ _ R1) as [-> | ->];
      unfold scan_error; split; auto; discriminate. }
  destruct (d =? 0).
  { cbn. unfold scan_error; split; auto; discriminate. }
  set (z1 := set_err None (consume b1 z)).
  destruct (read_uint32_shape z1) as (b2 & r2 & R2).
  rewrite R2.
  destruct r2 as [e|s].
  { cbn. destruct (read_uint32_error _ _ _ R2) as [-> | ->];
      unfold scan_error; split; auto; discriminate. }
  destruct (_ || _).
  { cbn. unfold scan_error, CorruptionError. split; auto. discriminate. }
  unfold File_Seek_CUR0. fields. unfold z1. fields.
  destruct (seekable (z_f z)); cbn; [reflexivity|].
  unfold scan_error. auto.
Qed.

Lemma scan_last_call (fuel : nat) : forall z zf : Indexer,
  scan fuel z = Some zf ->
  exists z', zf = fst (findBlock z') /\ z_err zf = snd (findBlock z') /\
             contents (z_f z') = contents (z_f z) /\
             seekable (z_f z') = seekable (z_f z).
Proof.
  induction fuel as [|fuel IH]; intros z zf H; [discriminate|].
  cbn [scan] in H.
  pose proof (findBlock_frame z) as (Herr & Hc & Hs & _).
  destruct (z_err (fst (findBlock z))) eqn:E.
  - inversion H; subst zf. exists z. rewrite E. auto.
  - destruct (IH _ _ H) as (z' & H1 & H2 & H3 & H4).
    exists z'. rewrite H3, H4, Hc, Hs. auto.
Qed.



(** ** The scan on streams that are not well formed *)

Lemma findBlock_at_end (z : Indexer) :
  Z.of_nat (length (contents (z_f z))) <= offset (z_f z) ->
  snd (findBlock z) = Some io_EOF.
Proof.
  intros H. unfold findBlock. rewrite read_uint32_cases. cbv zeta.
  rewrite skipn_all2 by lia. reflexivity.
Qed.

Lemma findBlock_short_field (z : Indexer) (pre tail : list byte) :
  positioned (z_f z) pre tail -> (0 < length tail < 4)%nat ->
  snd (findBlock z) = Some io_ErrUnexpectedEOF.
Proof.
  intros [Hdata Hoff] Hlen. unfold findBlock.
  rewrite read_uint32_cases. cbv zeta.
  rewrite Hdata, Hoff, Nat2Z.id, skipn_exact.
  rewrite firstn_all2 by lia.
  replace (Nat.eqb (length tail) 4) with false
    by (symmetry; apply Nat.eqb_neq; lia).
  replace (Nat.eqb (length tail) 0) with false
    by (symmetry; apply Nat.eqb_neq; lia).
  reflexivity.
Qed.

(** Well-formed blocks followed by anything [findBlock] stops at. *)
Lemma scan_blocks_then (e : error) (tail : list byte) (blocks : list Block) :
  forall (z : Indexer) (pre : list byte) (fuel : nat),
  positioned (z_f z) pre (concat (map block_bytes blocks) ++ tail) ->
  Forall (block_wf (z_num_decompressed_checksums z)
                   (z_num_compressed_checksums z)) blocks ->
  seekable (z_f z) = true -> counts_ok z ->
  Z.of_nat (length (contents (z_f z))) < 2 ^ 62 ->
  (length blocks < fuel)%nat ->
  (forall z', positioned (z_f z') (pre ++ concat (map block_bytes blocks)) tail ->
              snd (findBlock z') = Some e) ->
  exists z',
    scan fuel z = Some z' /\
    z_err z' = Some e /\
    z_indexes z'
    = z_indexes z ++ block_offsets (Z.of_nat (length pre)) blocks.
Proof.
  induction blocks as [|b blocks IH];
    intros z pre fuel Hpos Hwf Hseek Hc Hlen Hfuel Hend.
  - destruct fuel as [|fuel]; [cbn in Hfuel; lia|].
    cbn [map concat app] in Hpos, Hend. rewrite app_nil_r in Hend.
    specialize (Hend z Hpos). cbn [scan].
    pose proof (findBlock_frame z) as (Herr & _ & _ & _ & _ & Hsame).
    rewrite Herr, Hend.
    eexists. split; [reflexivity|]. split.
    + rewrite Herr. exact Hend.
    + cbn [block_offsets]. rewrite app_nil_r. apply Hsame.
      rewrite Hend. discriminate.
  - destruct fuel as [|fuel]; [cbn in Hfuel; lia|].
    cbn [map concat] in Hpos, Hend. rewrite <- app_assoc in Hpos.
    inversion Hwf as [|? ? Hb Hbs]; subst.
    destruct (findBlock_block z pre _ b Hpos Hb Hseek Hc Hlen)
      as (z1 & E & He & Hi & Hpos1 & Hcont & Hseek1 & Hnd & Hnc).
    cbn [scan]. rewrite E. cbn [fst]. rewrite He.
    assert (Hc1 : counts_ok z1).
    { unfold counts_ok. rewrite Hnd, Hnc. exact Hc. }
    destruct (IH z1 (pre ++ block_bytes b) fuel Hpos1) as
      (z' & Hscan & Herr & Hidx).
    + rewrite Hnd, Hnc. exact Hbs.
    + exact Hseek1.
    + exact Hc1.
    + rewrite Hcont. exact Hlen.
    + cbn in Hfuel. lia.
    + intros z2 Hz2. apply Hend. rewrite app_assoc. exact Hz2.
    + exists z'. split; [exact Hscan|]. split; [exact Herr|].
      rewrite Hidx, Hi, <- app_assoc. cbn [block_offsets app].
      rewrite length_app, Nat2Z.inj_add. reflexivity.
Qed.

Lemma scan_after_header_then (e : error) (f : File) (z0 : Indexer)
      (pre tail : list byte) (blocks : list Block) :
  NewIndexer f = inr z0 -> seekable f = true ->
  Z.of_nat (length (contents f)) < 2 ^ 62 ->
  positioned (z_f z0) pre (concat (map block_bytes blocks) ++ tail) ->
  Forall (block_wf (z_num_decompressed_checksums z0)
                   (z_num_compressed_checksums z0)) blocks ->
  (forall z', positioned (z_f z') (pre ++ concat (map block_bytes blocks)) tail ->
              snd (findBlock z') = Some e) ->
  exists zf,
    scan (scan_fuel f) z0 = Some zf /\
    z_err zf = Some e /\
    z_indexes zf = block_offsets (Z.of_nat (length pre)) blocks.
Proof.
  intros Hnew Hseek Hlen Hpos Hwf Hend.
  destruct (NewIndexer_inr f z0 Hnew) as (Hc & Hs & Hi & He & Ho & Hcnt).
  destruct (scan_blocks_then e tail blocks z0 pre (scan_fuel f) Hpos Hwf)
    as (zf & Hscan & Herr & Hidx); auto.
  - rewrite Hs. exact Hseek.
  - apply header_counts_ok. exact Hcnt.
  - rewrite Hc. exact Hlen.
  - unfold scan_fuel. rewrite <- Hc. destruct Hpos as [Hdata _].
    rewrite Hdata, !length_app.
    pose proof (blocks_length _ _ _ Hwf). lia.
  - exists zf. rewrite Hi in Hidx. auto.
Qed.

(** The sentinel is not needed: when the file ends right after the
    last well-formed block the scan ends with [io.EOF] all the same
    and records every block; one to three stray bytes there give
    [io.ErrUnexpectedEOF], with the same list. *)
Theorem scan_blocks_end_of_file
        (f : File) (z0 : Indexer) (pre tail : list byte) (blocks : list Block) :
  NewIndexer f = inr z0 -> seekable f = true ->
  Z.of_nat (length (contents f)) < 2 ^ 62 ->
  positioned (z_f z0) pre (concat (map block_bytes blocks) ++ tail) ->
  Forall (block_wf (z_num_decompressed_checksums z0)
                   (z_num_compressed_checksums z0)) blocks ->
  (length tail < 4)%nat ->
  exists zf,
    scan (scan_fuel f) z0 = Some zf /\
    z_err zf = Some (match tail with
                     | [] => io_EOF
                     | _ :: _ => io_ErrUnexpectedEOF
                     end) /\
    z_indexes zf = block_offsets (Z.of_nat (length pre)) blocks.
Proof.
  intros Hnew Hseek Hlen Hpos Hwf Htail.
  apply (scan_after_header_then _ f z0 pre tail blocks Hnew Hseek Hlen Hpos Hwf).
  intros z' Hz'. destruct tail as [|t tail].
  - apply findBlock_at_end. destruct Hz' as [Hd Ho].
    rewrite Hd, Ho, app_nil_r. lia.
  - apply (findBlock_short_field z' _ _ Hz'). cbn [length] in *. lia.
Qed.

Lemma scan_blocks_end_of_file_witness :
  let blocks := [mkBlock (PutUint32 3) (PutUint32 3) [] [x61; x62; x63]] in
  let data := sample_header 0x1030 1 0 ++ concat (map block_bytes blocks) ++ [] in
  exists zf,
    scan (scan_fuel (mkFile data 0 true)) (sample_indexer data) = Some zf /\
    z_err zf = Some io_EOF /\
    z_indexes zf = [38].
Proof.
  cbv zeta.
  apply (scan_blocks_end_of_file _ _ (sample_header 0x1030 1 0) []
           [mkBlock (PutUint32 3) (PutUint32 3) [] [x61; x62; x63]]);
    try (vm_compute; reflexivity).
  - split; vm_compute; reflexivity.
  - repeat constructor; vm_compute; try reflexivity; discriminate.
  - cbn. lia.
Defined.

(** A block whose sizes are refused ends the scan with
    "lzo: data corruption"; the blocks before it are in the list, the
    refused one is not. *)
Theorem scan_blocks_then_corrupt
        (f : File) (z0 : Indexer) (pre d s rest : list byte)
        (blocks : list Block) :
  NewIndexer f = inr z0 -> seekable f = true ->
  Z.of_nat (length (contents f)) < 2 ^ 62 ->
  positioned (z_f z0) pre (concat (map block_bytes blocks) ++ d ++ s ++ rest) ->
  Forall (block_wf (z_num_decompressed_checksums z0)
                   (z_num_compressed_checksums z0)) blocks ->
  length d = 4%nat -> length s = 4%nat -> Uint32 d <> 0 ->
  Uint32 s = 0 \/ Uint32 s > Uint32 d ->
  exists zf,
    scan (scan_fuel f) z0 = Some zf /\
    z_err zf = Some (errors_New "lzo: data corruption") /\
    z_indexes zf = block_offsets (Z.of_nat (length pre)) blocks.
Proof.
  intros Hnew Hseek Hlen Hpos Hwf Hd Hs Hd0 Hbad.
  apply (scan_after_header_then _ f z0 pre (d ++ s ++ rest) blocks
           Hnew Hseek Hlen Hpos Hwf).
  intros z' [Hdata Hoff].
  rewrite (findBlock_sizes z' (Uint32 d) (Uint32 s)).
  - destruct (Uint32 s <=? 0) eqn:E1; [reflexivity|].
    destruct (Uint32 s >? Uint32 d) eqn:E2; [reflexivity|].
    apply Z.leb_gt in E1. rewrite Z.gtb_ltb in E2. apply Z.ltb_ge in E2. lia.
  - rewrite Hdata, Hoff. apply u32_at_app. exact Hd.
  - rewrite Hdata, Hoff, app_assoc.
    replace (Z.of_nat (length (pre ++ concat (map block_bytes blocks))) + 4)
      with (Z.of_nat (length ((pre ++ concat (map block_bytes blocks)) ++ d)))
      by (rewrite (length_app _ d); lia).
    apply u32_at_app. exact Hs.
  - exact Hd0.
Qed.

Lemma scan_blocks_then_corrupt_witness :
  let blocks := [mkBlock (PutUint32 3) (PutUint32 3) [] [x61; x62; x63]] in
  let data := sample_header 0x1030 1 0 ++ concat (map block_bytes blocks)
              ++ PutUint32 5 ++ PutUint32 6 ++ [x00] in
  exists zf,
    scan (scan_fuel (mkFile data 0 true)) (sample_indexer data) = Some zf /\
    z_err zf = Some (errors_New "lzo: data corruption") /\
    z_indexes zf = [38].
Proof.
  cbv zeta.
  apply (scan_blocks_then_corrupt _ _ (sample_header 0x1030 1 0)
           (PutUint32 5) (PutUint32 6) [x00]
           [mkBlock (PutUint32 3) (PutUint32 3) [] [x61; x62; x63]]);
    try (vm_compute; reflexivity).
  - split; vm_compute; reflexivity.
  - repeat constructor; vm_compute; try reflexivity; discriminate.
  - vm_compute. discriminate.
  - right. vm_compute. reflexivity.
Defined.

(** [findBlock] reads the two size fields and nothing else.  A block
    with valid sizes is recorded even when the file ends before its
    checksums and payload do; the cursor is then at or past the end
    of the file and the next call ends the scan with [io.EOF]. *)
Theorem scan_truncated_payload
        (z : Indexer) (pre d s tail : list byte) :
  positioned (z_f z) pre (d ++ s ++ tail) ->
  length d = 4%nat -> length s = 4%nat ->
  0 < Uint32 s <= Uint32 d ->
  seekable (z_f z) = true -> counts_ok z ->
  Z.of_nat (length (contents (z_f z))) < 2 ^ 62 ->
  Z.of_nat (length tail)
  <= 4 * checksumsToSkip (z_num_decompressed_checksums z)
           (z_num_compressed_checksums z) (Uint32 d) (Uint32 s)
     + Uint32 s ->
  exists zf,
    scan 2 z = Some zf /\
    z_err zf = Some io_EOF /\
    z_indexes zf = z_indexes z ++ [Z.of_nat (length pre)].
Proof.
  intros [Hdata Hoff] Hd Hs Hsd Hseek Hc Hlen Htail.
  assert (Hd1 : u32_at (contents (z_f z)) (offset (z_f z)) = Some (Uint32 d)).
  { rewrite Hdata, Hoff. apply u32_at_app. exact Hd. }
  assert (Hs1 : u32_at (contents (z_f z)) (offset (z_f z) + 4)
                = Some (Uint32 s)).
  { rewrite Hdata, Hoff, app_assoc.
    replace (Z.of_nat (length pre) + 4) with (Z.of_nat (length (pre ++ d)))
      by (rewrite length_app; lia).
    apply u32_at_app. exact Hs. }
  assert (Hfit : Z.of_nat (length (contents (z_f z)))
                 = Z.of_nat (length pre) + 8 + Z.of_nat (length tail)).
  { rewrite Hdata, !length_app. lia. }
  destruct (findBlock_accept z _ _ Hd1 Hs1 ltac:(lia) Hsd Hseek Hc ltac:(lia))
    as (z1 & E & He & Hi & Ho1 & Hcont & _).
  cbn [scan]. rewrite E. cbn [fst]. rewrite He.
  pose proof (findBlock_frame z1) as (Herr & _ & _ & _ & _ & Hsame).
  assert (Hend : snd (findBlock z1) = Some io_EOF).
  { apply findBlock_at_end. rewrite Hcont, Ho1, Hoff. lia. }
  rewrite Herr, Hend. eexists. split; [reflexivity|]. split.
  - rewrite Herr. exact Hend.
  - rewrite Hsame by (rewrite Hend; discriminate).
    rewrite Hi, Hoff. reflexivity.
Qed.

Lemma scan_truncated_payload_witness :
  let z := new_Indexer (mkFile (PutUint32 100 ++ PutUint32 50 ++ [x61]) 0 true) in
  exists zf,
    scan 2 z = Some zf /\ z_err zf = Some io_EOF /\ z_indexes zf = [0].
Proof.
  cbv zeta.
  apply (scan_truncated_payload
           (new_Indexer (mkFile (PutUint32 100 ++ PutUint32 50 ++ [x61]) 0 true))
           [] (PutUint32 100) (PutUint32 50) [x61]);
    try (vm_compute; reflexivity).
  - split; reflexivity.
  - vm_compute. split; [reflexivity | discriminate].
  - split; cbn; lia.
  - vm_compute. discriminate.
Defined.

(** ** The offset list on any input *)

Lemma scan_increasing (fuel : nat) : forall z zf : Indexer,
  0 <= offset (z_f z) -> counts_ok z ->
  Z.of_nat (length (contents (z_f z))) < 2 ^ 62 ->
  scan fuel z = Some zf ->
  exists added,
    z_indexes zf = z_indexes z ++ added /\
    StronglySorted (fun a b => a + 9 <= b) added /\
    Forall (fun o => offset (z_f z) <= o /\
                     o + 8 <= Z.of_nat (length (contents (z_f z)))) added.
Proof.
  induction fuel as [|fuel IH]; intros z zf Ho Hc Hlen Hscan; [discriminate|].
  cbn [scan] in Hscan.
  pose proof (findBlock_frame z) as (Herr & _ & _ & _ & _ & Hsame).
  destruct (snd (findBlock z)) as [e|] eqn:E.
  - rewrite Herr in Hscan. inversion Hscan; subst zf.
    exists []. rewrite app_nil_r. repeat split; try constructor.
    apply Hsame. discriminate.
  - rewrite Herr in Hscan.
    destruct (findBlock_progress z Ho Hc Hlen E)
      as (_ & _ & Hi & Hadv & Hfit & Hcont & Hc').
    assert (Ho' : 0 <= offset (z_f (fst (findBlock z)))) by lia.
    assert (Hlen' : Z.of_nat (length (contents (z_f (fst (findBlock z)))))
                    < 2 ^ 62) by (rewrite Hcont; exact Hlen).
    destruct (IH _ _ Ho' Hc' Hlen' Hscan) as (added & Hadd & Hsorted & Hall).
    exists (offset (z_f z) :: added). split; [|split].
    + rewrite Hadd, Hi, <- app_assoc. reflexivity.
    + constructor; [exact Hsorted|].
      eapply Forall_impl; [|exact Hall]. cbn. intros a [Ha _]. lia.
    + constructor; [lia|].
      eapply Forall_impl; [|exact Hall]. cbn. rewrite Hcont.
      intros a [Ha Hb]. lia.
Qed.

(** On any input, well formed or not, the offsets the scan records
    after an accepted header lie at least 9 bytes apart in increasing
    order (a block has 8 bytes of size fields and a payload of at
    least one byte), none lies before the end of the header, and the
    size fields of each lie inside the file. *)
Theorem scan_offsets_increasing (f : File) (z0 zf : Indexer) :
  NewIndexer f = inr z0 -> 0 <= offset f ->
  Z.of_nat (length (contents f)) < 2 ^ 62 ->
  scan (scan_fuel f) z0 = Some zf ->
  StronglySorted (fun a b => a + 9 <= b) (z_indexes zf) /\
  Forall (fun o => offset (z_f z0) <= o /\
                   o + 8 <= Z.of_nat (length (contents f))) (z_indexes zf).
Proof.
  intros Hnew Hof Hlen Hscan.
  destruct (NewIndexer_inr f z0 Hnew) as (Hc & _ & Hi & _ & Ho & Hcnt).
  destruct (scan_increasing (scan_fuel f) z0 zf) as (added & Hadd & Hs & Hall); auto.
  - lia.
  - apply header_counts_ok. exact Hcnt.
  - rewrite Hc. exact Hlen.
  - rewrite Hadd, Hi. cbn [app]. rewrite Hc in Hall. auto.
Qed.

Lemma scan_offsets_increasing_witness :
  let data := sample_header 0x1030 1 0
              ++ sample_block 3 3 [x61; x62; x63]
              ++ sample_block 9 2 [x64; x65] ++ [x00; x00] in
  exists zf,
    scan (scan_fuel (mkFile data 0 true)) (sample_indexer data) = Some zf /\
    StronglySorted (fun a b => a + 9 <= b) (z_indexes zf).
Proof.
  cbv zeta.
  set (data := sample_header 0x1030 1 0
               ++ sample_block 3 3 [x61; x62; x63]
               ++ sample_block 9 2 [x64; x65] ++ [x00; x00]).
  destruct (scan (scan_fuel (mkFile data 0 true)) (sample_indexer data))
    as [zf|] eqn:E; [|vm_compute in E; discriminate].
  exists zf. split; [reflexivity|].
  apply (scan_offsets_increasing (mkFile data 0 true) (sample_indexer data) zf).
  - vm_compute. reflexivity.
  - cbn. lia.
  - vm_compute. reflexivity.
  - exact E.
Defined.

(** ** A handle that cannot seek *)

(** On a handle that cannot report its position (a pipe) [findBlock]
    never returns nil: whatever the stream holds it returns an error
    and leaves the offset list as it was, so the scan ends at its
    first call with that error and no offset recorded. *)
Theorem scan_not_seekable (fuel : nat) (z : Indexer) :
  seekable (z_f z) = false ->
  snd (findBlock z) <> None /\
  z_err (fst (findBlock z)) = snd (findBlock z) /\
  z_indexes (fst (findBlock z)) = z_indexes z /\
  scan (S fuel) z = Some (fst (findBlock z)).
Proof.
  intros Hseek.
  pose proof (findBlock_frame z) as (Herr & _ & _ & _ & _ & Hsame).
  pose proof (findBlock_scan_error z) as Hk.
  assert (Hne : snd (findBlock z) <> None).
  { destruct (snd (findBlock z)) as [e|]; [discriminate | congruence]. }
  split; [exact Hne|]. split; [exact Herr|].
  split; [apply Hsame; exact Hne|].
  cbn [scan]. rewrite Herr.
  destruct (snd (findBlock z)) as [e|]; [reflexivity | contradiction].
Qed.

Lemma scan_not_seekable_witness :
  let z := new_Indexer (mkFile (sample_block 3 3 [x61; x62; x63] ++ sentinel)
                          0 false) in
  snd (findBlock z) = Some (PathError "seek") /\
  z_indexes (fst (findBlock z)) = [] /\
  scan 5 z = Some (fst (findBlock z)).
Proof.
  cbv zeta.
  destruct (scan_not_seekable 4
              (new_Indexer
                 (mkFile (sample_block 3 3 [x61; x62; x63] ++ sentinel)
                    0 false)) eq_refl)
    as (_ & _ & Hi & Hscan).
  split; [vm_compute; reflexivity|].
  split; [exact Hi | exact Hscan].
Defined.

(** ** [CreateIndex] and the file system *)

Lemma string_length_append (s t : string) :
  String.length (s ++ t) = (String.length s + String.length t)%nat.
Proof. induction s as [|c s IH]; cbn; [reflexivity|]. rewrite IH. reflexivity. Qed.

Lemma index_name_differs (filename : string) :
  String.eqb filename (filename ++ ".index") = false.
Proof.
  apply String.eqb_neq. intros H.
  apply (f_equal String.length) in H.
  rewrite string_length_append in H. cbn in H. lia.
Qed.

Lemma write_indexes_fs (name : string) (l : list Z) (fs : FS) :
  fst (write_indexes name l fs) = fs.
Proof. destruct l; reflexivity. Qed.

Lemma CreateIndex_fs (filename : string) (fs fs' : FS) (o : outcome) :
  CreateIndex filename fs = Some (fs', o) ->
  fs' = fs \/ fs' = put_file (filename ++ ".index") (mkNode [] true) fs.
Proof.
  unfold CreateIndex, os_Open, os_Create.
  destruct (files fs filename) as [nd|]; [|intros H; inversion H; auto].
  destruct (creatable fs (filename ++ ".index")); [|intros H; inversion H; auto].
  destruct (NewIndexer _) as [e|z]; [intros H; inversion H; auto|].
  destruct (scan _ z) as [zf|]; [|discriminate].
  pose proof (write_indexes_fs (filename ++ ".index") (z_indexes zf)
                (put_file (filename ++ ".index") (mkNode [] true) fs)) as Hw.
  destruct (z_err zf) as [[| | |]|];
    try solve [intros H; inversion H; auto].
  destruct (write_indexes _ _ _) as [fs1 [p|]]; cbn in Hw; subst fs1;
    intros H; inversion H; auto.
Qed.

(** [CreateIndex] touches no file but the index file: every other
    name, the source file included, holds afterwards what it held
    before, however the call ends. *)
Theorem CreateIndex_other_files (filename name : string) (fs fs' : FS)
        (o : outcome) :
  CreateIndex filename fs = Some (fs', o) ->
  name <> (filename ++ ".index")%string ->
  files fs' name = files fs name /\
  files fs' filename = files fs filename.
Proof.
  intros H Hname. destruct (CreateIndex_fs _ _ _ _ H) as [-> | ->].
  - split; reflexivity.
  - cbn. rewrite index_name_differs.
    destruct (String.eqb name (filename ++ ".index")) eqn:E.
    + apply String.eqb_eq in E. contradiction.
    + split; reflexivity.
Qed.

Lemma CreateIndex_other_files_witness :
  let data := sample_header 0x1030 1 0 ++ sample_block 3 3 [x61; x62; x63]
              ++ sentinel in
  exists fs' o,
    CreateIndex "a.lzo" (sample_fs data) = Some (fs', o) /\
    files fs' "a.lzo" = Some (mkNode data true).
Proof.
  cbv zeta.
  set (data := sample_header 0x1030 1 0 ++ sample_block 3 3 [x61; x62; x63]
               ++ sentinel).
  destruct (CreateIndex "a.lzo" (sample_fs data)) as [[fs' o]|] eqn:E;
    [|vm_compute in E; discriminate].
  exists fs', o. split; [reflexivity|].
  destruct (CreateIndex_other_files "a.lzo" "a.lzo" (sample_fs data) fs' o E)
    as [H _].
  - discriminate.
  - rewrite H. reflexivity.
Defined.

(** A source that cannot be opened or an index file that cannot be
    created: [CreateIndex] returns the error of that call and leaves
    the file system as it was; in the first case the index file is
    not created. *)
Theorem CreateIndex_open_or_create_fails (filename : string) (fs : FS) :
  files fs filename = None \/
  creatable fs (filename ++ ".index") = false ->
  CreateIndex filename fs = Some (fs, Returns (Some (PathError "open"))).
Proof.
  unfold CreateIndex, os_Open, os_Create.
  intros [H | H].
  - rewrite H. reflexivity.
  - destruct (files fs filename); rewrite ?H; reflexivity.
Qed.

Lemma CreateIndex_open_or_create_fails_witness :
  CreateIndex "b.lzo" (sample_fs [])
  = Some (sample_fs [], Returns (Some (PathError "open"))).
Proof.
  apply (CreateIndex_open_or_create_fails "b.lzo" (sample_fs [])).
  left. reflexivity.
Defined.

(** Whenever [CreateIndex] gets past [os.Create], the index file
    exists afterwards and holds no byte, however the call ends; and a
    call that returns nil has scanned a stream without any block, up
    to [io.EOF]. *)
Theorem CreateIndex_index_file (filename : string) (fs fs' : FS)
        (nd : Node) (o : outcome) :
  files fs filename = Some nd ->
  creatable fs (filename ++ ".index") = true ->
  CreateIndex filename fs = Some (fs', o) ->
  files fs' (filename ++ ".index") = Some (mkNode [] true) /\
  (o = Returns None ->
   exists z zf,
     NewIndexer (mkFile (node_contents nd) 0 (node_seekable nd)) = inr z /\
     scan (scan_fuel (mkFile (node_contents nd) 0 (node_seekable nd))) z
     = Some zf /\
     z_err zf = Some io_EOF /\ z_indexes zf = []).
Proof.
  unfold CreateIndex, os_Open, os_Create. intros Hf Hc. rewrite Hf, Hc.
  set (lzofile := mkFile (node_contents nd) 0 (node_seekable nd)).
  set (idx := (filename ++ ".index")%string).
  destruct (NewIndexer lzofile) as [e|z] eqn:Hnew.
  { intros H; inversion H; subst. split; [apply files_put_file|discriminate]. }
  destruct (scan (scan_fuel lzofile) z) as [zf|] eqn:Hscan; [|discriminate].
  pose proof (scan_some_err _ _ _ Hscan) as Hne.
  destruct (z_err zf) as [e|] eqn:He; [|contradiction].
  destruct e; try (intros H; inversion H; subst;
                   split; [apply files_put_file|discriminate]).
  destruct (z_indexes zf) as [|n l] eqn:Hi; cbn [write_indexes PutUint64 length
    Nat.ltb Nat.leb]; intros H; inversion H; subst.
  - split; [apply files_put_file|]. intros _. exists z, zf. auto.
  - split; [apply files_put_file|discriminate].
Qed.

Lemma CreateIndex_index_file_witness :
  let data := sample_header 0x1030 1 0 ++ sentinel in
  exists fs',
    CreateIndex "a.lzo" (sample_fs data) = Some (fs', Returns None) /\
    files fs' "a.lzo.index" = Some (mkNode [] true).
Proof.
  cbv zeta.
  set (data := sample_header 0x1030 1 0 ++ sentinel).
  destruct (CreateIndex "a.lzo" (sample_fs data)) as [[fs' o]|] eqn:E;
    [|vm_compute in E; discriminate].
  destruct (CreateIndex_index_file "a.lzo" (sample_fs data) fs'
              (mkNode data true) o eq_refl eq_refl E) as [H _].
  exists fs'. split; [|exact H].
  vm_compute in E. inversion E. reflexivity.
Defined.

(** A stream that holds an accepted header and then the sentinel, or
    nothing at all, is indexed with success: [CreateIndex] returns
    nil and the index file is empty.  The handle need not seek. *)
Theorem CreateIndex_no_blocks (filename : string) (fs : FS) (nd : Node)
        (z : Indexer) (pre tail : list byte) :
  files fs filename = Some nd ->
  creatable fs (filename ++ ".index") = true ->
  NewIndexer (mkFile (node_contents nd) 0 (node_seekable nd)) = inr z ->
  positioned (z_f z) pre tail ->
  tail = [] \/ firstn 4 tail = sentinel ->
  exists fs',
    CreateIndex filename fs = Some (fs', Returns None) /\
    files fs' (filename ++ ".index") = Some (mkNode [] true).
Proof.
  intros Hf Hc Hnew Hpos Htail.
  destruct (NewIndexer_inr _ z Hnew) as (_ & _ & Hi & _).
  assert (Hend : snd (findBlock z) = Some io_EOF).
  { destruct Htail as [-> | Ht].
    - apply findBlock_at_end. destruct Hpos as [Hd Ho].
      rewrite Hd, Ho, app_nil_r. lia.
    - apply (findBlock_at_sentinel z pre (skipn 4 tail)).
      rewrite <- Ht, firstn_skipn. exact Hpos. }
  pose proof (findBlock_frame z) as (Herr & _ & _ & _ & _ & Hsame).
  exists (put_file (filename ++ ".index") (mkNode [] true) fs).
  split; [|apply files_put_file].
  unfold CreateIndex, os_Open, os_Create. rewrite Hf, Hc, Hnew.
  unfold scan_fuel. cbn [scan]. rewrite Herr, Hend, Herr, Hend.
  rewrite Hsame by (rewrite Hend; discriminate). rewrite Hi. reflexivity.
Qed.

Lemma CreateIndex_no_blocks_witness :
  exists fs',
    CreateIndex "a.lzo" (sample_fs (sample_header 0x1030 1 0))
    = Some (fs', Returns None) /\
    files fs' "a.lzo.index" = Some (mkNode [] true).
Proof.
  apply (CreateIndex_no_blocks "a.lzo" (sample_fs (sample_header 0x1030 1 0))
           (mkNode (sample_header 0x1030 1 0) true)
           (sample_indexer (sample_header 0x1030 1 0))
           (sample_header 0x1030 1 0) []).
  - reflexivity.
  - reflexivity.
  - vm_compute. reflexivity.
  - split; vm_compute; reflexivity.
  - left. reflexivity.
Defined.

(** ** [Close] *)

(** [Close] on the indexer [NewIndexer] returned gives nil.  After
    the scan it gives nil exactly when the scan ended with [io.EOF];
    otherwise it gives the error the scan ended with, which is then
    [io.ErrUnexpectedEOF], "lzo: data corruption" or the seek
    error. *)
Theorem Close_after_scan (f : File) (z0 zf : Indexer) (fuel : nat) :
  NewIndexer f = inr z0 -> scan fuel z0 = Some zf ->
  Close z0 = None /\
  (Close zf = None <-> z_err zf = Some io_EOF) /\
  (forall e, Close zf = Some e ->
             z_err zf = Some e /\
             (e = io_ErrUnexpectedEOF \/
              e = errors_New "lzo: data corruption" \/
              e = PathError "seek")).
Proof.
  intros Hnew Hscan.
  destruct (NewIndexer_inr f z0 Hnew) as (_ & _ & _ & He0 & _).
  destruct (scan_last_call _ _ _ Hscan) as (z' & _ & Herr & _).
  pose proof (findBlock_scan_error z') as Hk. rewrite <- Herr in Hk.
  pose proof (scan_some_err _ _ _ Hscan) as Hne.
  unfold Close. rewrite He0. split; [reflexivity|].
  destruct (z_err zf) as [e|]; [|contradiction].
  destruct Hk as [Hk _]. unfold scan_error, CorruptionError in Hk.
  split.
  - destruct e; split; intros H; try discriminate; reflexivity.
  - intros e' H. destruct e; inversion H; subst; try discriminate;
      (split; [reflexivity|]);
      destruct Hk as [Hk | [Hk | [Hk | Hk]]]; try discriminate; auto.
Qed.

Lemma Close_after_scan_witness :
  let data := sample_header 0x1030 1 0 ++ sample_block 3 4 [x61] in
  exists zf,
    scan 3 (sample_indexer data) = Some zf /\
    Close zf = Some (errors_New "lzo: data corruption").
Proof.
  cbv zeta.
  set (data := sample_header 0x1030 1 0 ++ sample_block 3 4 [x61]).
  destruct (scan 3 (sample_indexer data)) as [zf|] eqn:E;
    [|vm_compute in E; discriminate].
  destruct (Close_after_scan (mkFile data 0 true) (sample_indexer data) zf 3)
    as (_ & _ & _).
  - vm_compute. reflexivity.
  - exact E.
  - exists zf. split; [reflexivity|].
    vm_compute in E. inversion E. reflexivity.
Defined.

(** ** How far the header parser reads *)



Lemma adv_ret {A} (a : A) : advances 0 (ret a).
Proof. intros z z' a' H Hw. inversion H; subst. split; [exact Hw | lia]. Qed.

Lemma adv_fail {A} (n : Z) (e : error) : advances n (@fail A e).
Proof. intros z z' a H. discriminate. Qed.

Lemma adv_get : advances 0 get.
Proof. intros z z' a H Hw. inversion H; subst. split; [exact Hw | lia]. Qed.

Lemma adv_modify (g : Indexer -> Indexer) :
  (forall z, z_f (g z) = z_f z) -> advances 0 (modify g).
Proof.
  intros Hg z z' a H Hw. inversion H; subst. unfold within.
  rewrite Hg. split; [exact Hw | lia].
Qed.

Lemma adv_bind {A B} (n1 n2 : Z) (m : M A) (k : A -> M B) :
  advances n1 m -> (forall a, advances n2 (k a)) ->
  advances (n1 + n2) (bind m k).
Proof.
  intros Hm Hk z z' b H Hw. unfold bind in H.
  destruct (m z) as [z1 [e|a]] eqn:E; [discriminate|].
  destruct (Hm z z1 a E Hw) as [Hw1 H1].
  destruct (Hk a z1 z' b H Hw1) as [Hw2 H2].
  split; [exact Hw2 | lia].
Qed.

Lemma adv_weaken {A} (n n' : Z) (m : M A) :
  advances n m -> n' <= n -> advances n' m.
Proof.
  intros Hm Hle z z' a H Hw. destruct (Hm z z' a H Hw). split; [auto | lia].
Qed.

Lemma adv_when (c : bool) (n : Z) (m : M unit) :
  advances n m -> 0 <= n -> advances 0 (when c m).
Proof.
  intros Hm Hn. destruct c; [|apply adv_ret].
  apply (adv_weaken n); assumption.
Qed.

Lemma adv_when_true (n : Z) (m : M unit) :
  advances n m -> advances n (when true m).
Proof. intros Hm. exact Hm. Qed.

Lemma adv_readFull (n : nat) : advances (Z.of_nat n) (readFull n).
Proof.
  intros z z' bs H [Ho Hl]. rewrite readFull_cases in H. cbv zeta in H.
  destruct (Nat.eqb _ n) eqn:E;
    [|destruct (Nat.eqb _ 0); discriminate].
  apply Nat.eqb_eq in E. inversion H; subst z'. clear H.
  unfold within. fields. rewrite E.
  rewrite length_firstn, length_skipn in E. split; lia.
Qed.

Lemma adv_read_uint8 : advances 1 read_uint8.
Proof.
  apply (adv_bind 1 0); [apply (adv_readFull 1) | intros; apply adv_ret].
Qed.

Lemma adv_read_uint16 : advances 2 read_uint16.
Proof.
  apply (adv_bind 2 0); [apply (adv_readFull 2) | intros; apply adv_ret].
Qed.

Lemma adv_read_uint32 : advances 4 read_uint32.
Proof.
  apply (adv_bind 4 0); [apply (adv_readFull 4) | intros; apply adv_ret].
Qed.

Ltac adv_step :=
  lazymatch goal with
  | |- advances _ read_uint8 => apply adv_read_uint8
  | |- advances _ read_uint16 => apply adv_read_uint16
  | |- advances _ read_uint32 => apply adv_read_uint32
  | |- advances _ (readFull _) => apply adv_readFull
  | |- advances _ (bind _ _) => eapply adv_bind; [|intros]
  | |- advances _ (when true _) => apply adv_when_true
  | |- advances _ (when _ _) => eapply adv_when
  | |- advances _ (modify _) => apply adv_modify; intros; reflexivity
  | |- advances _ get => apply adv_get
  | |- advances _ (ret _) => apply adv_ret
  | |- advances _ (fail _) => apply (adv_fail 0)
  | |- advances _ (if ?c then _ else _) => destruct c
  end.

Lemma readHeader_advances : advances 38 readHeader.
Proof.
  unfold readHeader.
  change (version >=? 2368) with true. change (version <? 2304) with false.
  change (version <? 288) with false.
  eapply adv_weaken.
  - repeat adv_step. all: lia.
  - vm_compute. discriminate.
Qed.

(** A header takes at least 38 bytes (the magic, the fixed fields,
    an empty name and the checksum): after success the cursor is at
    least 38 bytes further and still inside the file, so a file
    shorter than 38 bytes is never accepted. *)
Theorem NewIndexer_header_length (f : File) (z : Indexer) :
  NewIndexer f = inr z ->
  0 <= offset f <= Z.of_nat (length (contents f)) ->
  offset f + 38 <= offset (z_f z) <= Z.of_nat (length (contents f)).
Proof.
  unfold NewIndexer. intros H Hw.
  destruct (readHeader (new_Indexer f)) as [z' [e|[]]] eqn:E; [discriminate|].
  inversion H; subst z'.
  destruct (readHeader_advances (new_Indexer f) z tt E Hw) as [[_ Hz] Ho].
  destruct (NewIndexer_inr f z) as (Hc & _).
  { unfold NewIndexer. rewrite E. reflexivity. }
  rewrite Hc in Hz. cbn in Ho. lia.
Qed.

Lemma NewIndexer_header_length_witness :
  let data := sample_header 0x1030 1 0 ++ sentinel in
  0 + 38 <= offset (z_f (sample_indexer data)) <= Z.of_nat (length data).
Proof.
  cbv zeta.
  apply (NewIndexer_header_length
           (mkFile (sample_header 0x1030 1 0 ++ sentinel) 0 true)).
  - vm_compute. reflexivity.
  - cbn. lia.
Defined.

